(** * thirsty: adding water points of interest to a GPX trace

    A shallow embedding of [thirsty/cli.py] and the properties of its
    geospatial pipeline: bounding box, Overpass query construction,
    proximity filter and waypoint merge.

    Conventions of the embedding.
    - A Python float is an IEEE double.  Coordinates, thresholds and
      distances are the real numbers [R] that finite doubles denote, so the
      comparisons that [min], [max] and [<] make are exact.  The rounded
      arithmetic and the functions of the C library are not fixed: they are
      the operations of the class [Arith], a parameter of everything that
      computes with floats.  Its instance [binary64], over primitive floats,
      is the arithmetic of the doubles themselves, on which [haversine] can
      be run; its instance [exact_arith] is arithmetic without rounding.
    - A Python exception is a value of [exn]; a computation that may raise
      returns a [result].
    - The network (the Overpass server) is a component of an explicit
      [world] that also records every request that was posted. *)

From Stdlib Require Import Floats Uint63 ZArith.
From Stdlib Require Import Reals Lra Lia String Ascii List.
From stdpp Require Import base option list gmap strings.

Local Open Scope string_scope.
Local Open Scope list_scope.

(** ** Exceptions and results *)

Inductive exn : Type :=
| NameError (name : string)
| UnboundLocalError (name : string)
| TypeError
| KeyError (key : string)
| ValueError
| HTTPError.

Inductive result (A : Type) : Type :=
| Ok (a : A)
| Raise (e : exn).

Arguments Ok {A} a.
Arguments Raise {A} e.

Definition rbind {A B} (r : result A) (k : A -> result B) : result B :=
  match r with
  | Ok a => k a
  | Raise e => Raise e
  end.

Declare Scope py_scope.
Delimit Scope py_scope with py.
Notation "'let*' x ':=' r 'in' k" := (rbind r (fun x => k))
  (at level 10, x binder, r at level 100, k at level 200) : py_scope.

Definition returns {A} (r : result A) : Prop := exists a, r = Ok a.

(** ** Floating-point arithmetic

    What the program asks of its floats: the doubles of integer literals,
    the four rounded operations, [x ** 2], the functions of the C library,
    and the test [x < 0].  [deg_to_rad] is the constant pi / 180 by which
    [math.radians] multiplies. *)
Class Arith (T : Type) : Type :=
  { lit : Z -> T;
    deg_to_rad : T;
    fadd : T -> T -> T;
    fsub : T -> T -> T;
    fmul : T -> T -> T;
    fdiv : T -> T -> T;
    fsquare : T -> T;
    fsin : T -> T;
    fcos : T -> T;
    fatan2 : T -> T -> T;
    fsqrt : T -> T;
    negative : T -> bool }.

(** ** The [math] functions used by [haversine] *)

Module math.
(** [math.radians]: degrees to radians. *)
Definition radians {T} {F : Arith T} (x : T) : T := fmul x deg_to_rad.

(** [math.sqrt] raises [ValueError] on a negative argument. *)
Definition sqrt {T} {F : Arith T} (x : T) : result T :=
  if negative x then Raise ValueError else Ok (fsqrt x).
End math.

(** ** Distance function *)

(** The argument [a] of the two square roots in [haversine]. *)
Definition haversine_a {T} {F : Arith T} (lat1 lon1 lat2 lon2 : T) : T :=
  let phi1 := math.radians lat1 in
  let phi2 := math.radians lat2 in
  let d_phi := math.radians (fsub lat2 lat1) in
  let d_lambda := math.radians (fsub lon2 lon1) in
  fadd (fsquare (fsin (fdiv d_phi (lit 2))))
       (fmul (fmul (fcos phi1) (fcos phi2))
             (fsquare (fsin (fdiv d_lambda (lit 2))))).

(** [haversine]: distance in metres between two GPS points.  The two square
    roots are taken in the order in which the arguments of [atan2] are
    evaluated. *)
Definition haversine {T} {F : Arith T} (lat1 lon1 lat2 lon2 : T) : result T :=
  (let R := lit 6371000 in
   let a := haversine_a lat1 lon1 lat2 lon2 in
   let* sa := math.sqrt a in
   let* sb := math.sqrt (fsub (lit 1) a) in
   let c := fmul (lit 2) (fatan2 sa sb) in
   Ok (fmul R c))%py.

(** ** Data model *)

(** A JSON value as the proximity filter and the merger see it: a number, a
    string, or the tag mapping of an element. *)
Inductive json : Type :=
| JNum (x : R)
| JStr (s : string)
| JTags (kv : list (string * string)).

(** An element of the Overpass answer is a Python [dict]. *)
Abbreviation poi := (gmap string json).

(** [poi[key]]: a missing key raises [KeyError]. *)
Definition getitem (d : poi) (key : string) : result json :=
  match d !! key with
  | Some v => Ok v
  | None => Raise (KeyError key)
  end.

(** The part of [gpxpy]'s object model that the program touches. *)
Module gpxpy.
Record GPXTrackPoint : Type :=
  { latitude : R; longitude : R }.

Record GPXTrackSegment : Type :=
  { points : list GPXTrackPoint }.

Record GPXTrack : Type :=
  { segments : list GPXTrackSegment }.

(** A waypoint stores whatever was assigned to its attributes. *)
Record GPXWaypoint : Type :=
  { wpt_latitude : json;
    wpt_longitude : json;
    name : string;
    description : string;
    symbol : string }.

Record GPX : Type :=
  { tracks : list GPXTrack;
    waypoints : list GPXWaypoint }.
End gpxpy.
Import gpxpy.

(** [pt for trk in gpx.tracks for seg in trk.segments for pt in seg.points] *)
Definition track_points (gpx : GPX) : list GPXTrackPoint :=
  flat_map (fun trk => flat_map (fun seg => points seg) (segments trk))
           (tracks gpx).

(** ** Bounding box *)

(** One step of Python's [min]: the running minimum [m] is replaced by the
    next item [y] only when [y < m]. *)
Definition keep_min (m y : R) : R := if Rlt_dec y m then y else m.

(** One step of Python's [max]: replaced only when [y > m]. *)
Definition keep_max (m y : R) : R := if Rgt_dec y m then y else m.

(** Python's [min] over an iterable: [ValueError] when it is empty, else a
    scan that starts from the first item. *)
Definition py_min (xs : list R) : result R :=
  match xs with
  | [] => Raise ValueError
  | x :: rest => Ok (fold_left keep_min rest x)
  end.

(** Python's [max]: the same scan with [>]. *)
Definition py_max (xs : list R) : result R :=
  match xs with
  | [] => Raise ValueError
  | x :: rest => Ok (fold_left keep_max rest x)
  end.

(** [get_bounds]: bounding box [south, west, north, east] of the trace. *)
Definition get_bounds (gpx : GPX) : result (R * R * R * R) :=
  (let* min_lat := py_min (map latitude (track_points gpx)) in
   let* max_lat := py_max (map latitude (track_points gpx)) in
   let* min_lon := py_min (map longitude (track_points gpx)) in
   let* max_lon := py_max (map longitude (track_points gpx)) in
   Ok (min_lat, min_lon, max_lat, max_lon))%py.

(** ** Name resolution

    The names bound at module level by [cli.py], and the built-in names its
    functions refer to.  A name that is neither local, global nor built-in
    raises [NameError] when it is loaded. *)
Definition module_globals : list string :=
  [ "argparse"; "math"; "BytesIO"; "folium"; "gpxpy"; "requests"; "rich";
    "OVERPASS_URL"; "console"; "display_gpx_on_map"; "download_gpx";
    "get_bounds"; "Area"; "POI"; "Amenity"; "Natural"; "query_POIs";
    "query_snacks_and_drinks"; "query_drinking_water";
    "add_waypoints_to_gpx"; "haversine"; "filter_pois_near_track"; "main" ].

Definition builtins : list string :=
  [ "super"; "str"; "min"; "max"; "sum"; "len"; "int"; "any"; "open" ].

Definition load_name (locals : list string) (n : string) : result unit :=
  if decide (n ∈ locals ++ module_globals ++ builtins)
  then Ok tt else Raise (NameError n).

(** A local variable of a function that is read before any assignment to it
    raises [UnboundLocalError]. *)
Definition load_fast (assigned : list string) (n : string) : result unit :=
  if decide (n ∈ assigned) then Ok tt else Raise (UnboundLocalError n).

(** ** Query builder *)

Definition dquote : string := String (ascii_of_nat 34) EmptyString.
Definition newline : string := String (ascii_of_nat 10) EmptyString.

(** [sep.join(lines)] *)
Fixpoint join (sep : string) (lines : list string) : string :=
  match lines with
  | [] => EmptyString
  | [l] => l
  | l :: rest => l +:+ sep +:+ join sep rest
  end.

Record Area : Type :=
  { min_lat : R; min_lon : R; max_lat : R; max_lon : R }.

(** [Area.__str__]; [repr] is Python's rendering of a float. *)
Definition Area___str__ (repr : R -> string) (self : Area) : string :=
  repr (min_lat self) +:+ "," +:+ repr (min_lon self) +:+ ","
  +:+ repr (max_lat self) +:+ "," +:+ repr (max_lon self).

(** A POI category: both attributes are [None] or a string. *)
Record POI : Type :=
  { _primary : option string; _secondary : option string }.

(** [POI.__init__(self, *args, **kwargs)] ignores its arguments. *)
Definition POI___init__ : POI :=
  {| _primary := None; _secondary := None |}.

(** How an f-string renders an attribute that is [None] or a string. *)
Definition format_attr (o : option string) : string :=
  match o with
  | None => "None"
  | Some s => s
  end.

(** [POI.__str__] *)
Definition POI___str__ (self : POI) : string :=
  let ret := dquote +:+ format_attr (_primary self) +:+ dquote in
  match _secondary self with
  | Some sec => ret +:+ "=" +:+ dquote +:+ sec +:+ dquote
  | None => ret
  end.

(** A value that is either [None] or a string. *)
Inductive pyval : Type :=
| PNone
| PStr (s : string).

(** The f-string that [POI.get_query_line] evaluates; [str(area)] is outside
    the braces and so is literal text. *)
Definition query_line_text (self : POI) (area : Area) : string :=
  "node[" +:+ POI___str__ self +:+ "](str(area));".

(** [POI.get_query_line]: the f-string is an expression statement and the
    method has no [return], so the call evaluates to [None]. *)
Definition get_query_line (self : POI) (area : Area) : pyval :=
  let _ := query_line_text self area in PNone.

(** [s + v] for a string [s]. *)
Definition str_add (s : string) (v : pyval) : result string :=
  match v with
  | PStr t => Ok (s +:+ t)
  | PNone => Raise TypeError
  end.

(** [Amenity.__init__]: the starred argument [args] is evaluated first. *)
Definition Amenity {A} (secondary : A) : result POI :=
  (let locals := ["self"; "secondary"] in
   let* _ := load_name locals "super" in
   let* _ := load_name locals "args" in
   let* _ := load_name locals "secondary" in
   let* _ := load_name locals "kwargs" in
   Ok POI___init__)%py.

(** [Natural.__init__] *)
Definition Natural {A} (secondary : A) : result POI :=
  (let locals := ["self"; "secondary"] in
   let* _ := load_name locals "super" in
   let* _ := load_name locals "args" in
   let* _ := load_name locals "secondary" in
   let* _ := load_name locals "kwargs" in
   Ok POI___init__)%py.

(** A list comprehension whose element expression may raise. *)
Fixpoint map_result {A B} (f : A -> result B) (xs : list A) : result (list B) :=
  match xs with
  | [] => Ok []
  | x :: rest =>
      (let* y := f x in
       let* ys := map_result f rest in
       Ok (y :: ys))%py
  end.

(** Loading a name that must denote a collection of POI categories.  The
    module binds no such global: a name bound to something else cannot be
    iterated, a name bound nowhere raises [NameError]. *)
Definition load_pois (locals : list (string * list POI)) (n : string)
  : result (list POI) :=
  match list_find (fun kv => kv.1 = n) locals with
  | Some (_, (_, v)) => Ok v
  | None =>
      if decide (n ∈ module_globals ++ builtins)
      then Raise TypeError else Raise (NameError n)
  end.

(** ["  " + p.get_query_line(area) for p in pois] *)
Definition poi_lines (pois : list POI) (area : Area) : result (list string) :=
  map_result (fun p => str_add "  " (get_query_line p area)) pois.

(** The query text that [query_POIs] builds before it posts it. *)
Definition query_text (pois : list POI) (min_lat min_lon max_lat max_lon : R)
  : result string :=
  (let area := {| min_lat := min_lat; min_lon := min_lon;
                  max_lat := max_lat; max_lon := max_lon |} in
   let* poi_lines := poi_lines pois area in
   let query_lines :=
     ["[out:json][timeout:25];"; "("] ++ poi_lines ++ [");"; "out body;"] in
   Ok (join newline query_lines))%py.

(** ** The network

    The Overpass server answers a posted query with the list of elements or
    with a failure; every posted query is recorded. *)
Record world : Type :=
  { overpass : string -> result (list poi);
    requests : list string }.

(** Computations that may post requests. *)
Definition Py (A : Type) : Type := world -> result A * world.

Definition pure {A} (r : result A) : Py A := fun w => (r, w).

Definition pbind {A B} (c : Py A) (k : A -> Py B) : Py B :=
  fun w =>
    match c w with
    | (Ok a, w') => k a w'
    | (Raise e, w') => (Raise e, w')
    end.

Notation "'let!' x ':=' c 'in' k" := (pbind c (fun x => k))
  (at level 10, x binder, c at level 100, k at level 200) : py_scope.

(** [requests.post(OVERPASS_URL, data=query)], [raise_for_status] and
    [response.json()["elements"]]. *)
Definition requests_post (query : string) : Py (list poi) :=
  fun w =>
    (overpass w query,
     {| overpass := overpass w; requests := requests w ++ [query] |}).

(** [query_POIs] *)
Definition query_POIs (pois : list POI) (min_lat min_lon max_lat max_lon : R)
  : Py (list poi) :=
  (let! query := pure (query_text pois min_lat min_lon max_lat max_lon) in
   requests_post query)%py.

(** [query_snacks_and_drinks]: [pois] is a local of the function (it is the
    target of [+=]) and the augmented assignment reads it first.
    [amenities] and [naturals] are the two sets, as lists in the order in
    which this run iterates them. *)
Definition query_snacks_and_drinks (amenities naturals : list string)
    (min_lat min_lon max_lat max_lon : R) : Py (list poi) :=
  (let assigned := ["min_lat"; "min_lon"; "max_lat"; "max_lon";
                    "amenities"; "naturals"] in
   let! _ := pure (load_fast assigned "pois") in
   let! _ := pure (map_result Amenity amenities) in
   let! _ := pure (map_result Natural naturals) in
   let! POIS := pure (load_pois [] "POIS") in
   query_POIs POIS min_lat min_lon max_lat max_lon)%py.

(** The two sets of [query_snacks_and_drinks], in source order. *)
Definition snack_amenities : list string :=
  [ "drinking_water"; "restaurant"; "milk_dispenser"; "pub"; "shop"; "kiosk";
    "juice_bar"; "fuel" ].
Definition snack_naturals : list string := [ "spring" ].

(** [query_drinking_water]: query the Overpass API for water. *)
Definition query_drinking_water (min_lat min_lon max_lat max_lon : R)
  : Py (list poi) :=
  (let! a := pure (Amenity "drinking_water") in
   let! n := pure (Natural "spring") in
   let WATER := [a; n] in
   query_POIs WATER min_lat min_lon max_lat max_lon)%py.

(** ** Waypoint merger *)

(** The waypoint built by one iteration of the loop. *)
Definition water_waypoint (lat lon : json) : GPXWaypoint :=
  {| wpt_latitude := lat;
     wpt_longitude := lon;
     name := "Water";
     description := "Water";
     symbol := "water-drop" |}.

(** [gpx.waypoints.append(wpt)] *)
Definition append_waypoint (gpx : GPX) (wpt : GPXWaypoint) : GPX :=
  {| tracks := tracks gpx; waypoints := waypoints gpx ++ [wpt] |}.

(** [add_waypoints_to_gpx] updates [gpx] in place and returns it.  The result
    is the state of that object when the call ends, with the exception that
    ended it, if any. *)
Fixpoint add_waypoints_to_gpx (gpx : GPX) (pois : list poi)
  : GPX * option exn :=
  match pois with
  | [] => (gpx, None)
  | p :: rest =>
      match getitem p "lat" with
      | Raise e => (gpx, Some e)
      | Ok lat =>
          match getitem p "lon" with
          | Raise e => (gpx, Some e)
          | Ok lon =>
              add_waypoints_to_gpx
                (append_waypoint gpx (water_waypoint lat lon)) rest
          end
      end
  end.

(** ** Proximity filter *)

(** [haversine] applied to the coordinates of an element: arithmetic on a
    value that is not a number raises [TypeError]. *)
Definition haversine_py {F : Arith R} (lat lon : json) (lat2 lon2 : R)
  : result R :=
  match lat, lon with
  | JNum lat1, JNum lon1 => haversine lat1 lon1 lat2 lon2
  | _, _ => Raise TypeError
  end.

(** [any(haversine(lat, lon, pt.latitude, pt.longitude) < max_distance_m
         for pt in points)] *)
Fixpoint any_near {F : Arith R} (lat lon : json) (max_distance_m : R)
    (points : list GPXTrackPoint) : result bool :=
  match points with
  | [] => Ok false
  | pt :: rest =>
      (let* d := haversine_py lat lon (latitude pt) (longitude pt) in
       if Rlt_dec d max_distance_m then Ok true
       else any_near lat lon max_distance_m rest)%py
  end.

(** The loop of [filter_pois_near_track]; [nearby_pois] is the list built so
    far. *)
Fixpoint filter_loop {F : Arith R} (points : list GPXTrackPoint)
    (max_distance_m : R) (pois nearby_pois : list poi) : result (list poi) :=
  match pois with
  | [] => Ok nearby_pois
  | p :: rest =>
      (let* lat := getitem p "lat" in
       let* lon := getitem p "lon" in
       let* near := any_near lat lon max_distance_m points in
       filter_loop points max_distance_m rest
         (if near then nearby_pois ++ [p] else nearby_pois))%py
  end.

(** [filter_pois_near_track]: keep only the POI near the trace. *)
Definition filter_pois_near_track {F : Arith R} (gpx : GPX)
    (pois : list poi) (max_distance_m : R) : result (list poi) :=
  let points := track_points gpx in
  let nearby_pois := [] in
  filter_loop points max_distance_m pois nearby_pois.

(** The default of [max_distance_m] and of [--distance]. *)
Definition default_distance : R := 100.

(** ** The pipeline of [main] between parsing and writing *)

Definition main_pipeline {F : Arith R} (gpx : GPX) (distance : R) : Py GPX :=
  (let! bounds := pure (get_bounds gpx) in
   let '(min_lat, min_lon, max_lat, max_lon) := bounds in
   let! pois := query_drinking_water min_lat min_lon max_lat max_lon in
   let! pois := pure (filter_pois_near_track gpx pois distance) in
   match add_waypoints_to_gpx gpx pois with
   | (gpx, None) => pure (Ok gpx)
   | (_, Some e) => pure (Raise e)
   end)%py.

(** ** Vocabulary of the specification *)

(** [sub_selection P l l']: [l'] is [l] with exactly the elements that
    satisfy [P] kept, each once per occurrence and in the order of [l]. *)
Inductive sub_selection {A} (P : A -> Prop) : list A -> list A -> Prop :=
| sel_nil : sub_selection P [] []
| sel_keep x l l' :
    P x -> sub_selection P l l' -> sub_selection P (x :: l) (x :: l')
| sel_drop x l l' :
    ~ P x -> sub_selection P l l' -> sub_selection P (x :: l) l'.

(** A candidate as the data model has it: latitude and longitude are present
    and are numbers. *)
Definition numeric_coords (p : poi) : Prop :=
  exists lat lon, p !! "lat" = Some (JNum lat) /\ p !! "lon" = Some (JNum lon).

(** The track point [pt] is at haversine distance strictly less than
    [max_distance_m] from [(lat, lon)]. *)
Definition within {F : Arith R} (max_distance_m lat lon : R)
    (pt : GPXTrackPoint) : Prop :=
  exists d, haversine lat lon (latitude pt) (longitude pt) = Ok d
            /\ (d < max_distance_m)%R.

(** Some point of [points] is within the threshold of the candidate [p]. *)
Definition near_points {F : Arith R} (points : list GPXTrackPoint)
    (max_distance_m : R) (p : poi) : Prop :=
  exists lat lon pt,
    p !! "lat" = Some (JNum lat) /\ p !! "lon" = Some (JNum lon)
    /\ pt ∈ points /\ within max_distance_m lat lon pt.

(** The nearest point of [points] to the candidate [p] is at distance exactly
    [d]: some point is at distance [d] and none is closer. *)
Definition nearest_at {F : Arith R} (points : list GPXTrackPoint) (p : poi)
    (d : R) : Prop :=
  exists lat lon,
    p !! "lat" = Some (JNum lat) /\ p !! "lon" = Some (JNum lon)
    /\ (exists pt, pt ∈ points
                   /\ haversine lat lon (latitude pt) (longitude pt) = Ok d)
    /\ (forall pt h, pt ∈ points ->
                     haversine lat lon (latitude pt) (longitude pt) = Ok h ->
                     (d <= h)%R).

(** Every distance computation that the filter can make for the candidates
    [pois] and the points [points] returns a number. *)
Definition distances_return {F : Arith R} (points : list GPXTrackPoint)
    (pois : list poi) : Prop :=
  forall p lat lon pt,
    p ∈ pois -> p !! "lat" = Some (JNum lat) -> p !! "lon" = Some (JNum lon) ->
    pt ∈ points ->
    returns (haversine lat lon (latitude pt) (longitude pt)).

(** A candidate that carries both coordinate fields, whatever their values. *)
Definition has_coords (p : poi) : Prop :=
  is_Some (p !! "lat") /\ is_Some (p !! "lon").

(** The candidate lacks a coordinate field, and [k] is the first one that the
    code looks up and does not find. *)
Definition first_missing (p : poi) (k : string) : Prop :=
  p !! "lat" = None /\ k = "lat"
  \/ is_Some (p !! "lat") /\ p !! "lon" = None /\ k = "lon".

(** [w] is the waypoint that the merger makes of the candidate [p]. *)
Definition is_water_waypoint (p : poi) (w : GPXWaypoint) : Prop :=
  p !! "lat" = Some (wpt_latitude w) /\ p !! "lon" = Some (wpt_longitude w)
  /\ name w = "Water" /\ description w = "Water" /\ symbol w = "water-drop".

(** The requests that running [c] in the world [w] adds to the record. *)
Definition posted {A} (c : Py A) (w : world) : list string :=
  drop (length (requests w)) (requests (c w).2).

(** ** Sample data *)

Definition pt_origin : GPXTrackPoint := {| latitude := 0; longitude := 0 |}.
Definition pt_north : GPXTrackPoint := {| latitude := 2; longitude := -1 |}.

(** One track with a segment of two points and an empty segment. *)
Definition gpx_two_points : GPX :=
  {| tracks := [ {| segments := [ {| points := [pt_origin; pt_north] |};
                                  {| points := [] |} ] |} ];
     waypoints := [] |}.

(** A track whose only segment has no point. *)
Definition gpx_no_point : GPX :=
  {| tracks := [ {| segments := [ {| points := [] |} ] |} ];
     waypoints := [] |}.

(** An element at the origin, and one without latitude. *)
Definition poi_origin : poi :=
  {[ "lat" := JNum 0; "lon" := JNum 0;
     "tags" := JTags [("amenity", "drinking_water")] ]}.
Definition poi_no_lat : poi :=
  {[ "lon" := JNum 0; "tags" := JTags [("amenity", "drinking_water")] ]}.

(** A server that answers every query with no element. *)
Definition quiet_world : world :=
  {| overpass := fun _ => Ok []; requests := [] |}.

(** ** Map display

    [display_gpx_on_map] hands its data to [folium]; what is modelled is
    what the function computes itself: the centre of the map, and the
    arguments of the marker of each POI. *)

(** The outcome of a computation that may also divide by zero. *)
Inductive outcome (A : Type) : Type :=
| Done (a : A)
| Failed (e : exn)
| ZeroDivisionError.

Arguments Done {A} a.
Arguments Failed {A} e.
Arguments ZeroDivisionError {A}.

(** [sum(xs)]: the items are added to 0 from left to right. *)
Definition py_sum {F : Arith R} (xs : list R) : R := fold_left fadd xs (lit 0).

(** [sum(xs) / len(xs)] *)
Definition mean {F : Arith R} (xs : list R) : outcome R :=
  match length xs with
  | O => ZeroDivisionError
  | S n => Done (fdiv (py_sum xs) (lit (Z.of_nat (S n))))
  end.

(** The statements of [display_gpx_on_map] up to [map_center]. *)
Definition map_center {F : Arith R} (data : GPX) : outcome (R * R) :=
  let track_latitudes := map latitude (track_points data) in
  let track_longitudes := map longitude (track_points data) in
  match mean track_latitudes with
  | Done center_lat =>
      match mean track_longitudes with
      | Done center_lon => Done (center_lat, center_lon)
      | Failed e => Failed e
      | ZeroDivisionError => ZeroDivisionError
      end
  | Failed e => Failed e
  | ZeroDivisionError => ZeroDivisionError
  end.

(** [tags[key]] on the tag mapping of an element. *)
Definition tags_getitem (kv : list (string * string)) (key : string)
  : result string :=
  match list_find (fun e => e.1 = key) kv with
  | Some (_, (_, v)) => Ok v
  | None => Raise (KeyError key)
  end.

(** [v[key]] for a string key: a number or a string cannot be subscripted by
    it. *)
Definition subscript (v : json) (key : string) : result string :=
  match v with
  | JTags kv => tags_getitem kv key
  | _ => Raise TypeError
  end.

(** The arguments of the marker of one POI in [display_gpx_on_map], in the
    order in which they are evaluated: the location
    [[poi["lat"], poi["lon"]]], then the popup text
    [poi['tags']["amenity"]]. *)
Definition marker_arguments (p : poi) : result (json * json * string) :=
  (let* lat := getitem p "lat" in
   let* lon := getitem p "lon" in
   let* tags := getitem p "tags" in
   let* amenity := subscript tags "amenity" in
   Ok (lat, lon, amenity))%py.

(** ** Further vocabulary and sample data *)

(** No character of [s] is a double quote. *)
Fixpoint quote_free (s : string) : bool :=
  match s with
  | EmptyString => true
  | String c rest => negb (Ascii.eqb c (ascii_of_nat 34)) && quote_free rest
  end.

(** A candidate that carries both coordinate fields, not both of them
    numbers. *)
Definition non_numeric_coords (p : poi) : Prop :=
  exists lat lon, p !! "lat" = Some lat /\ p !! "lon" = Some lon
                  /\ ~ (exists x y, lat = JNum x /\ lon = JNum y).

(** Two traces with the same points, whatever their order and their grouping
    into segments and tracks. *)
Definition same_points (gpx1 gpx2 : GPX) : Prop :=
  forall pt, pt ∈ track_points gpx1 <-> pt ∈ track_points gpx2.

(** The points of [gpx_two_points] in the other order, one track each, and
    with a waypoint. *)
Definition gpx_regrouped : GPX :=
  {| tracks := [ {| segments := [ {| points := [pt_north] |} ] |};
                 {| segments := [ {| points := [pt_origin] |} ] |} ];
     waypoints := [water_waypoint (JNum 5) (JNum 5)] |}.

(** Only the first point of [gpx_two_points]. *)
Definition gpx_one_point : GPX :=
  {| tracks := [ {| segments := [ {| points := [pt_origin] |} ] |} ];
     waypoints := [] |}.

(** An element whose latitude is a string, and a spring. *)
Definition poi_text_lat : poi :=
  {[ "lat" := JStr "0"; "lon" := JNum 0 ]}.
Definition poi_spring : poi :=
  {[ "lat" := JNum 0; "lon" := JNum 0;
     "tags" := JTags [("natural", "spring")] ]}.

(** The category amenity=drinking_water. *)
Definition category_drinking_water : POI :=
  {| _primary := Some "amenity"; _secondary := Some "drinking_water" |}.

(** ** Two arithmetics *)

(** The angle of the point [(x, y)], in (-PI, PI]. *)
Definition real_atan2 (y x : R) : R :=
  if Rlt_dec 0 x then atan (y / x)
  else if Rlt_dec x 0 then
    (if Rle_dec 0 y then atan (y / x) + PI else atan (y / x) - PI)%R
  else if Rlt_dec 0 y then (PI / 2)%R
  else if Rlt_dec y 0 then (- (PI / 2))%R
  else 0%R.

(** Arithmetic without rounding, on the real numbers. *)
Definition exact_arith : Arith R :=
  {| lit := IZR;
     deg_to_rad := (PI / 180)%R;
     fadd := Rplus;
     fsub := Rminus;
     fmul := Rmult;
     fdiv := Rdiv;
     fsquare x := (x ^ 2)%R;
     fsin := sin;
     fcos := cos;
     fatan2 := real_atan2;
     fsqrt := R_sqrt.sqrt;
     negative x := if Rlt_dec x 0 then true else false |}.

(** The functions of the C library that [haversine] calls, on doubles;
    [libm_pow2 x] is [pow(x, 2.0)]. *)
Record libm : Type :=
  { libm_sin : float -> float;
    libm_cos : float -> float;
    libm_atan2 : float -> float -> float;
    libm_pow2 : float -> float }.

(** The arithmetic of Python floats: IEEE binary64 operations, rounded to
    nearest, and the C library [m].  [deg_to_rad] is the quotient of the
    double nearest to pi by 180. *)
Definition binary64 (m : libm) : Arith float :=
  {| lit z := PrimFloat.of_uint63 (Uint63.of_Z z);
     deg_to_rad := (0x1.921fb54442d18p+1 / 180)%float;
     fadd := PrimFloat.add;
     fsub := PrimFloat.sub;
     fmul := PrimFloat.mul;
     fdiv := PrimFloat.div;
     fsquare := libm_pow2 m;
     fsin := libm_sin m;
     fcos := libm_cos m;
     fatan2 := libm_atan2 m;
     fsqrt := PrimFloat.sqrt;
     negative x := PrimFloat.ltb x 0%float |}.

(** The values of the C library at the arguments that [haversine] reaches
    between (8, 0) and (-8, 180), in either order: the sine and cosine of
    8 degrees and of a quarter turn, and two squares. *)
Definition libm_near_antipode (m : libm) : Prop :=
  libm_sin m (-0x1.1df46a2529d39p-3)%float = (-0x1.1d06c968d9e19p-3)%float
  /\ libm_sin m 0x1.1df46a2529d39p-3%float = 0x1.1d06c968d9e19p-3%float
  /\ libm_sin m 0x1.921fb54442d18p+0%float = 1%float
  /\ libm_sin m (-0x1.921fb54442d18p+0)%float = (-1)%float
  /\ libm_cos m 0x1.1df46a2529d39p-3%float = 0x1.fb046a930947ap-1%float
  /\ libm_cos m (-0x1.1df46a2529d39p-3)%float = 0x1.fb046a930947ap-1%float
  /\ libm_pow2 m (-0x1.1d06c968d9e19p-3)%float = 0x1.3d581ca184804p-6%float
  /\ libm_pow2 m 0x1.1d06c968d9e19p-3%float = 0x1.3d581ca184804p-6%float
  /\ libm_pow2 m 1%float = 1%float
  /\ libm_pow2 m (-1)%float = 1%float.

(** A C library given by those values: sine and cosine as tables on the four
    arguments, the square as the rounded product. *)
Definition libm_table : libm :=
  {| libm_sin x :=
       if PrimFloat.eqb x 0x1.1df46a2529d39p-3%float
       then 0x1.1d06c968d9e19p-3%float
       else if PrimFloat.eqb x (-0x1.1df46a2529d39p-3)%float
       then (-0x1.1d06c968d9e19p-3)%float
       else if PrimFloat.eqb x 0x1.921fb54442d18p+0%float then 1%float
       else if PrimFloat.eqb x (-0x1.921fb54442d18p+0)%float then (-1)%float
       else x;
     libm_cos x :=
       if PrimFloat.eqb (PrimFloat.abs x) 0x1.1df46a2529d39p-3%float
       then 0x1.fb046a930947ap-1%float
       else 1%float;
     libm_atan2 y x := y;
     libm_pow2 x := PrimFloat.mul x x |}.

(** ** Traces and candidates from coordinates *)



(** * Properties *)

(** ** Arithmetic without rounding *)

Section ExactArith.
Local Open Scope R_scope.

Lemma sqr_sin_cos x : sin x ^ 2 + cos x ^ 2 = 1.
Proof. generalize (sin2_cos2 x). unfold Rsqr. lra. Qed.

Lemma sqr_sin_bounds x : 0 <= sin x ^ 2 <= 1.
Proof.
  generalize (sqr_sin_cos x) (pow2_ge_0 (sin x)) (pow2_ge_0 (cos x)). lra.
Qed.

Lemma sqr_cos_bounds x : 0 <= cos x ^ 2 <= 1.
Proof.
  generalize (sqr_sin_cos x) (pow2_ge_0 (sin x)) (pow2_ge_0 (cos x)). lra.
Qed.

(** Without rounding, with [m] the mean latitude, [u] half the latitude
    difference and [s] the squared sine of half the longitude difference,
    [a] is the mean of [sin u ^ 2] and [cos m ^ 2] with weights [1 - s] and
    [s]. *)
Lemma exact_haversine_a_convex lat1 lon1 lat2 lon2 :
  let m := (lat1 * (PI / 180) + lat2 * (PI / 180)) / 2 in
  let u := (lat2 - lat1) * (PI / 180) / 2 in
  let s := sin ((lon2 - lon1) * (PI / 180) / 2) ^ 2 in
  haversine_a (F := exact_arith) lat1 lon1 lat2 lon2
  = (1 - s) * sin u ^ 2 + s * cos m ^ 2.
Proof.
  intros m u s.
  change (haversine_a (F := exact_arith) lat1 lon1 lat2 lon2)
    with (sin u ^ 2 + cos (lat1 * (PI / 180)) * cos (lat2 * (PI / 180)) * s).
  replace (lat1 * (PI / 180)) with (m - u) by (unfold m, u; lra).
  replace (lat2 * (PI / 180)) with (m + u) by (unfold m, u; lra).
  rewrite cos_minus, cos_plus.
  generalize (sqr_sin_cos m) (sqr_sin_cos u).
  generalize (sin m) (cos m) (sin u) (cos u) s. intros sm cm su cu t Hm Hu.
  transitivity
    (su ^ 2 + t * (cm ^ 2 * (1 - su ^ 2) - (1 - cm ^ 2) * su ^ 2)); [| ring].
  replace (1 - su ^ 2) with (cu ^ 2) by lra.
  replace (1 - cm ^ 2) with (sm ^ 2) by lra.
  ring.
Qed.

Lemma exact_haversine_a_range lat1 lon1 lat2 lon2 :
  0 <= haversine_a (F := exact_arith) lat1 lon1 lat2 lon2 <= 1.
Proof.
  rewrite exact_haversine_a_convex.
  generalize (sqr_sin_bounds ((lon2 - lon1) * (PI / 180) / 2))
    (sqr_sin_bounds ((lat2 - lat1) * (PI / 180) / 2))
    (sqr_cos_bounds ((lat1 * (PI / 180) + lat2 * (PI / 180)) / 2)).
  cbv zeta. intros Hs Hu Hm. nra.
Qed.

(** Without rounding [haversine] never leaves the domain of the square
    root. *)
Lemma exact_haversine_returns lat1 lon1 lat2 lon2 :
  returns (haversine (F := exact_arith) lat1 lon1 lat2 lon2).
Proof.
  destruct (exact_haversine_a_range lat1 lon1 lat2 lon2) as [H0 H1].
  unfold haversine, math.sqrt. cbv zeta.
  generalize dependent (haversine_a (F := exact_arith) lat1 lon1 lat2 lon2).
  intros a H0 H1. simpl.
  destruct (Rlt_dec a 0); [lra |]. simpl.
  destruct (Rlt_dec (1 - a) 0); [lra |]. simpl. eexists. reflexivity.
Qed.

Lemma exact_distances_return (points : list GPXTrackPoint) (pois : list poi) :
  distances_return (F := exact_arith) points pois.
Proof. intros p lat lon pt _ _ _ _. apply exact_haversine_returns. Qed.
End ExactArith.

(** ** The distance function on doubles *)

(** Runs a closed float computation, using the recorded values of the C
    library where it reaches them. *)
Ltac run_binary64 :=
  repeat (vm_compute;
          match goal with
          | H : _ = _ :> float |- _ => rewrite H
          end);
  vm_compute.

Lemma libm_table_near_antipode : libm_near_antipode libm_table.
Proof. repeat split; vm_compute; reflexivity. Qed.

(** C5 does not hold of the code. Between (8, 0) and (-8, 180), two valid
    coordinates that are nearly opposite on the sphere, the doubles give
    [a] = 1 + 2^-52: the second square root is taken of the negative number
    [1 - a], and [haversine] raises [ValueError] instead of returning a
    distance, in either order of the two points.  The computation is that
    of IEEE doubles, with the values of the C library's sine, cosine and
    square at the arguments reached. *)
Theorem haversine_near_antipode_raises (m : libm) :
  libm_near_antipode m ->
  haversine_a (F := binary64 m) 8%float 0%float (-8)%float 180%float
  = 0x1.0000000000001p+0%float
  /\ haversine (F := binary64 m) 8%float 0%float (-8)%float 180%float
     = Raise ValueError
  /\ haversine (F := binary64 m) (-8)%float 180%float 8%float 0%float
     = Raise ValueError.
Proof.
  destruct m as [sin cos atan2 pow2]. unfold libm_near_antipode. simpl.
  intros (H1 & H2 & H3 & H4 & H5 & H6 & H7 & H8 & H9 & H10).
  split; [| split]; run_binary64; reflexivity.
Qed.

Lemma haversine_near_antipode_raises_witness :
  libm_near_antipode libm_table
  /\ haversine (F := binary64 libm_table) 8%float 0%float (-8)%float 180%float
     = Raise ValueError
  /\ haversine (F := binary64 libm_table) (-8)%float 180%float 8%float 0%float
     = Raise ValueError.
Proof.
  split; [exact libm_table_near_antipode |].
  exact (proj2 (haversine_near_antipode_raises libm_table
                  libm_table_near_antipode)).
Defined.

(** ** Bounding box *)

Lemma keep_min_le m y : (keep_min m y <= m /\ keep_min m y <= y)%R.
Proof. unfold keep_min. destruct (Rlt_dec y m); lra. Qed.

Lemma keep_max_ge m y : (m <= keep_max m y /\ y <= keep_max m y)%R.
Proof. unfold keep_max. destruct (Rgt_dec y m); lra. Qed.

Lemma keep_min_choice m y : keep_min m y = m \/ keep_min m y = y.
Proof. unfold keep_min. destruct (Rlt_dec y m); auto. Qed.

Lemma keep_max_choice m y : keep_max m y = m \/ keep_max m y = y.
Proof. unfold keep_max. destruct (Rgt_dec y m); auto. Qed.

(** The scan of [min] ends on an item of the sequence that is below all of
    them. *)
Lemma fold_min_spec (rest : list R) (x : R) :
  fold_left keep_min rest x ∈ x :: rest
  /\ forall y, y ∈ x :: rest -> (fold_left keep_min rest x <= y)%R.
Proof.
  revert x. induction rest as [| z rest IH]; intros x; simpl.
  - split; [left |]. intros y Hy. apply list_elem_of_singleton in Hy. lra.
  - destruct (IH (keep_min x z)) as [Hin Hle].
    pose proof (keep_min_le x z) as [Hx Hz].
    pose proof (Hle (keep_min x z) ltac:(left)) as H0. split.
    + apply elem_of_cons in Hin as [Heq | Hin]; [| by do 2 right].
      rewrite Heq. destruct (keep_min_choice x z) as [-> | ->];
        [left | right; left].
    + intros y Hy.
      apply elem_of_cons in Hy as [-> | Hy]; [lra |].
      apply elem_of_cons in Hy as [-> | Hy]; [lra |].
      apply Hle. by right.
Qed.

Lemma fold_max_spec (rest : list R) (x : R) :
  fold_left keep_max rest x ∈ x :: rest
  /\ forall y, y ∈ x :: rest -> (y <= fold_left keep_max rest x)%R.
Proof.
  revert x. induction rest as [| z rest IH]; intros x; simpl.
  - split; [left |]. intros y Hy. apply list_elem_of_singleton in Hy. lra.
  - destruct (IH (keep_max x z)) as [Hin Hle].
    pose proof (keep_max_ge x z) as [Hx Hz].
    pose proof (Hle (keep_max x z) ltac:(left)) as H0. split.
    + apply elem_of_cons in Hin as [Heq | Hin]; [| by do 2 right].
      rewrite Heq. destruct (keep_max_choice x z) as [-> | ->];
        [left | right; left].
    + intros y Hy.
      apply elem_of_cons in Hy as [-> | Hy]; [lra |].
      apply elem_of_cons in Hy as [-> | Hy]; [lra |].
      apply Hle. by right.
Qed.

Lemma py_min_spec (xs : list R) :
  xs <> [] ->
  exists m, py_min xs = Ok m /\ m ∈ xs /\ forall y, y ∈ xs -> (m <= y)%R.
Proof.
  destruct xs as [| x rest]; [done | intros _].
  eexists. split; [reflexivity |]. apply fold_min_spec.
Qed.

Lemma py_max_spec (xs : list R) :
  xs <> [] ->
  exists m, py_max xs = Ok m /\ m ∈ xs /\ forall y, y ∈ xs -> (y <= m)%R.
Proof.
  destruct xs as [| x rest]; [done | intros _].
  eexists. split; [reflexivity |]. apply fold_max_spec.
Qed.

(** The points of the trace are the points of the segments of its tracks. *)
Lemma elem_of_track_points (gpx : GPX) (pt : GPXTrackPoint) :
  pt ∈ track_points gpx <->
  exists trk seg, trk ∈ tracks gpx /\ seg ∈ segments trk /\ pt ∈ points seg.
Proof.
  unfold track_points. rewrite list_elem_of_In, in_flat_map. split.
  - intros (trk & Htrk & Hpt). apply in_flat_map in Hpt as (seg & Hseg & Hpt).
    exists trk, seg. rewrite !list_elem_of_In. done.
  - intros (trk & seg & Htrk & Hseg & Hpt). exists trk.
    rewrite in_flat_map. rewrite !list_elem_of_In in *. eauto.
Qed.

Lemma get_bounds_empty (gpx : GPX) :
  track_points gpx = [] -> get_bounds gpx = Raise ValueError.
Proof. intros H. unfold get_bounds. by rewrite H. Qed.

(** C2. For a trace with at least one point, [get_bounds] returns
    (south, west, north, east) with south <= north and west <= east; every
    point of every segment of every track has its latitude in
    [south, north] and its longitude in [west, east]; and each of the four
    numbers is the latitude, or longitude, of some point of the trace, so
    they are the minima and maxima over all points. *)
Theorem get_bounds_encloses (gpx : GPX) :
  track_points gpx <> [] ->
  exists south west north east,
    get_bounds gpx = Ok (south, west, north, east)
    /\ (south <= north)%R /\ (west <= east)%R
    /\ (forall trk seg pt,
          trk ∈ tracks gpx -> seg ∈ segments trk -> pt ∈ points seg ->
          (south <= latitude pt <= north)%R
          /\ (west <= longitude pt <= east)%R)
    /\ (exists pt, pt ∈ track_points gpx /\ latitude pt = south)
    /\ (exists pt, pt ∈ track_points gpx /\ longitude pt = west)
    /\ (exists pt, pt ∈ track_points gpx /\ latitude pt = north)
    /\ (exists pt, pt ∈ track_points gpx /\ longitude pt = east).
Proof.
  intros Hne.
  assert (Hlat : map latitude (track_points gpx) <> [])
    by (destruct (track_points gpx); done).
  assert (Hlon : map longitude (track_points gpx) <> [])
    by (destruct (track_points gpx); done).
  destruct (py_min_spec _ Hlat) as (south & Es & Is & Ls).
  destruct (py_max_spec _ Hlat) as (north & En & In_ & Ln).
  destruct (py_min_spec _ Hlon) as (west & Ew & Iw & Lw).
  destruct (py_max_spec _ Hlon) as (east & Ee & Ie & Le).
  exists south, west, north, east.
  assert (Hall : forall pt, pt ∈ track_points gpx ->
            (south <= latitude pt <= north)%R
            /\ (west <= longitude pt <= east)%R).
  { intros pt Hpt.
    pose proof (list_elem_of_fmap_2 latitude _ _ Hpt) as Hla.
    pose proof (list_elem_of_fmap_2 longitude _ _ Hpt) as Hlo.
    specialize (Ls _ Hla). specialize (Ln _ Hla).
    specialize (Lw _ Hlo). specialize (Le _ Hlo). lra. }
  apply list_elem_of_fmap in Is as (ps & -> & Hps).
  apply list_elem_of_fmap in In_ as (pn & -> & Hpn).
  apply list_elem_of_fmap in Iw as (pw & -> & Hpw).
  apply list_elem_of_fmap in Ie as (pe & -> & Hpe).
  split; [unfold get_bounds; by rewrite Es, En, Ew, Ee |].
  split; [destruct (Hall _ Hps); lra |].
  split; [destruct (Hall _ Hpw); lra |].
  split.
  { intros trk seg pt Htrk Hseg Hpt. apply Hall.
    apply elem_of_track_points. eauto. }
  repeat split; eauto.
Qed.

Lemma get_bounds_encloses_witness :
  track_points gpx_two_points <> []
  /\ exists south west north east,
       get_bounds gpx_two_points = Ok (south, west, north, east)
       /\ (south <= north)%R /\ (west <= east)%R.
Proof.
  assert (H : track_points gpx_two_points <> []) by (simpl; discriminate).
  split; [exact H |].
  destruct (get_bounds_encloses gpx_two_points H)
    as (south & west & north & east & Hb & Hsn & Hwe & _).
  exists south, west, north, east. auto.
Defined.

(** The bounding box of the sample trace. *)
Example get_bounds_two_points :
  get_bounds gpx_two_points = Ok (0, -1, 2, 0)%R.
Proof.
  unfold get_bounds, py_min, py_max. simpl. unfold keep_min, keep_max.
  repeat match goal with
         | |- context [Rlt_dec ?a ?b] => destruct (Rlt_dec a b); try lra
         | |- context [Rgt_dec ?a ?b] => destruct (Rgt_dec a b); try lra
         end.
  reflexivity.
Qed.

(** C9. A trace with no point at all makes [get_bounds] raise [ValueError]
    instead of returning a bounding box, and the pipeline ends with that
    exception in whatever world it runs, before any request is posted. *)
Theorem get_bounds_empty_track {F : Arith R} (gpx : GPX) (distance : R)
    (w : world) :
  track_points gpx = [] ->
  get_bounds gpx = Raise ValueError
  /\ main_pipeline gpx distance w = (Raise ValueError, w).
Proof.
  intros H. pose proof (get_bounds_empty gpx H) as Hb.
  split; [exact Hb |].
  unfold main_pipeline, pbind, pure. by rewrite Hb.
Qed.

Lemma get_bounds_empty_track_witness :
  track_points gpx_no_point = []
  /\ get_bounds gpx_no_point = Raise ValueError
  /\ main_pipeline (F := exact_arith) gpx_no_point default_distance
       quiet_world
     = (Raise ValueError, quiet_world).
Proof.
  split; [reflexivity |].
  apply (get_bounds_empty_track (F := exact_arith) gpx_no_point
           default_distance quiet_world).
  reflexivity.
Defined.

(** ** Proximity filter *)

Lemma sub_selection_sublist {A} (P : A -> Prop) (l l' : list A) :
  sub_selection P l l' -> sublist l' l.
Proof. induction 1; by constructor. Qed.

Lemma sub_selection_elem_of {A} (P : A -> Prop) (l l' : list A) :
  sub_selection P l l' -> forall x, x ∈ l' <-> x ∈ l /\ P x.
Proof.
  induction 1 as [| y l l' Hy _ IH | y l l' Hy _ IH]; intros x.
  - split; [intros H | intros [H _]]; inversion H.
  - rewrite !elem_of_cons, IH. split.
    + intros [-> | [? ?]]; auto.
    + intros [[-> | ?] ?]; auto.
  - rewrite elem_of_cons, IH. split.
    + intros [? ?]; auto.
    + intros [[-> | ?] ?]; [contradiction | auto].
Qed.

Section FilterFacts.
Context {F : Arith R}.

(** On numbers whose distances to the points all return, [any] returns, and
    returns [True] exactly when some point is within the threshold. *)
Lemma any_near_numeric lat lon d (pts : list GPXTrackPoint) :
  (forall pt, pt ∈ pts ->
              returns (haversine lat lon (latitude pt) (longitude pt))) ->
  exists b, any_near (JNum lat) (JNum lon) d pts = Ok b
            /\ (b = true <-> exists pt, pt ∈ pts /\ within d lat lon pt).
Proof.
  induction pts as [| pt pts IH]; intros Hret; simpl.
  - exists false. split; [done |]. split; [done |].
    intros (pt & Hpt & _). inversion Hpt.
  - destruct (Hret pt ltac:(left)) as [h Hh]. rewrite Hh. simpl.
    destruct IH as (b & Hb & Hiff);
      [intros pt' Hpt'; apply Hret; by right |].
    destruct (Rlt_dec h d) as [Hlt | Hge].
    + exists true. split; [done |]. split; [| done]. intros _.
      exists pt. split; [left |]. exists h. done.
    + exists b. split; [done |]. rewrite Hiff. split.
      * intros (pt' & Hpt' & Hw). exists pt'. split; [by right | done].
      * intros (pt' & Hpt' & Hw).
        apply elem_of_cons in Hpt' as [-> | Hpt']; [| by eauto].
        destruct Hw as (h' & Hh' & Hlt). rewrite Hh in Hh'.
        injection Hh' as <-. contradiction.
Qed.

Lemma distances_return_cons pts (p : poi) (pois : list poi) :
  distances_return pts (p :: pois) ->
  (forall lat lon pt,
      p !! "lat" = Some (JNum lat) -> p !! "lon" = Some (JNum lon) ->
      pt ∈ pts ->
      returns (haversine lat lon (latitude pt) (longitude pt)))
  /\ distances_return pts pois.
Proof.
  intros H. split.
  - intros lat lon pt Hlat Hlon Hpt. by apply (H p); [left | | |].
  - intros q lat lon pt Hq. apply H. by right.
Qed.

Lemma distances_return_subset pts (pois pois' : list poi) :
  (forall p, p ∈ pois' -> p ∈ pois) ->
  distances_return pts pois -> distances_return pts pois'.
Proof. intros Hsub H p lat lon pt Hp. apply H. by apply Hsub. Qed.

(** The loop appends to [nearby_pois] the stable selection of the candidates
    that are near the points. *)
Lemma filter_loop_spec pts d (pois acc : list poi) :
  Forall numeric_coords pois -> distances_return pts pois ->
  exists out, filter_loop pts d pois acc = Ok (acc ++ out)
              /\ sub_selection (near_points pts d) pois out.
Proof.
  intros Hwf. revert acc.
  induction Hwf as [| p pois (lat & lon & Hlat & Hlon) _ IH];
    intros acc Hret.
  - exists []. rewrite app_nil_r. split; [done | constructor].
  - apply distances_return_cons in Hret as [Hp Hret].
    simpl. unfold getitem. rewrite Hlat, Hlon. simpl.
    destruct (any_near_numeric lat lon d pts) as (b & -> & Hb);
      [intros pt Hpt; by apply Hp |].
    simpl. destruct b.
    + destruct (IH (acc ++ [p]) Hret) as (out & -> & Hsel).
      exists (p :: out). rewrite <- app_assoc. split; [done |].
      apply sel_keep; [| done].
      destruct (proj1 Hb eq_refl) as (pt & Hpt & Hw).
      by exists lat, lon, pt.
    + destruct (IH acc Hret) as (out & -> & Hsel).
      exists out. split; [done |]. apply sel_drop; [| done].
      intros (lat' & lon' & pt & Hlat' & Hlon' & Hpt & Hw).
      rewrite Hlat in Hlat'. rewrite Hlon in Hlon'.
      injection Hlat' as <-. injection Hlon' as <-.
      assert (false = true) by (apply Hb; eauto). done.
Qed.

(** The loop stops with [KeyError] at the first candidate that lacks a
    coordinate field. *)
Lemma filter_loop_missing pts d (pre post acc : list poi) (bad : poi) k :
  Forall numeric_coords pre -> distances_return pts pre ->
  first_missing bad k ->
  filter_loop pts d (pre ++ bad :: post) acc = Raise (KeyError k).
Proof.
  intros Hwf Hret Hbad. revert acc.
  induction Hwf as [| p pre (lat & lon & Hlat & Hlon) _ IH]; intros acc.
  - simpl. unfold getitem.
    destruct Hbad as [[-> ->] | ([v ->] & -> & ->)]; done.
  - apply distances_return_cons in Hret as [Hp Hret].
    simpl. unfold getitem. rewrite Hlat, Hlon. simpl.
    destruct (any_near_numeric lat lon d pts) as (b & -> & _);
      [intros pt Hpt; by apply Hp |].
    simpl. by apply IH.
Qed.

(** The loop returns only when every candidate carries both coordinate
    fields. *)
Lemma filter_loop_returns_has_coords pts d (pois acc : list poi) :
  returns (filter_loop pts d pois acc) -> Forall has_coords pois.
Proof.
  revert acc. induction pois as [| p pois IH]; intros acc Hret; [done |].
  simpl in Hret. unfold getitem in Hret.
  destruct (p !! "lat") as [lat |] eqn:Hlat;
    [| destruct Hret as [out Hout]; discriminate].
  destruct (p !! "lon") as [lon |] eqn:Hlon;
    [| destruct Hret as [out Hout]; discriminate].
  simpl in Hret.
  destruct (any_near lat lon d pts) as [b |];
    [| destruct Hret as [out Hout]; discriminate].
  simpl in Hret. constructor; [split; eauto | by eapply IH].
Qed.

Lemma nearest_at_not_near pts (p : poi) d :
  nearest_at pts p d -> ~ near_points pts d p.
Proof.
  intros (lat & lon & Hlat & Hlon & _ & Hmin)
         (lat' & lon' & pt & Hlat' & Hlon' & Hpt & h & Hh & Hlt).
  rewrite Hlat in Hlat'. rewrite Hlon in Hlon'.
  injection Hlat' as <-. injection Hlon' as <-.
  specialize (Hmin pt h Hpt Hh). lra.
Qed.



(** X29. On candidates that carry numeric coordinates and whose distance
    computations all return, the proximity filter returns; its output is
    the stable selection of the candidates that have a track point (of any
    segment of any track) at haversine distance strictly below the
    threshold: a sublist of the input in the same order, containing exactly
    those candidates; and a candidate whose nearest track point is at
    distance exactly the threshold is not in the output. *)
Theorem filter_pois_near_track_selects (gpx : GPX) (pois : list poi)
    (max_distance_m : R) :
  Forall numeric_coords pois ->
  distances_return (track_points gpx) pois ->
  exists out,
    filter_pois_near_track gpx pois max_distance_m = Ok out
    /\ sub_selection (near_points (track_points gpx) max_distance_m) pois out
    /\ sublist out pois
    /\ (forall p, p ∈ out <->
                  p ∈ pois
                  /\ exists lat lon trk seg pt,
                       p !! "lat" = Some (JNum lat)
                       /\ p !! "lon" = Some (JNum lon)
                       /\ trk ∈ tracks gpx /\ seg ∈ segments trk
                       /\ pt ∈ points seg
                       /\ within max_distance_m lat lon pt)
    /\ (forall p, nearest_at (track_points gpx) p max_distance_m -> p ∉ out).
Proof.
  intros Hwf Hret. unfold filter_pois_near_track.
  destruct (filter_loop_spec (track_points gpx) max_distance_m pois []
              Hwf Hret) as (out & Hrun & Hsel).
  exists out. split; [exact Hrun |]. split; [exact Hsel |].
  pose proof (sub_selection_elem_of _ _ _ Hsel) as Hmem.
  split; [by eapply sub_selection_sublist |]. split.
  - intros p. rewrite Hmem. split.
    + intros (Hp & lat & lon & pt & Hlat & Hlon & Hpt & Hw).
      split; [done |].
      apply elem_of_track_points in Hpt as (trk & seg & ? & ? & ?).
      exists lat, lon, trk, seg, pt. done.
    + intros (Hp & lat & lon & trk & seg & pt & Hlat & Hlon & ? & ? & ? & Hw).
      split; [done |]. exists lat, lon, pt. repeat split; try done.
      apply elem_of_track_points. eauto.
  - intros p Hnearest Hin. apply Hmem in Hin as [_ Hnear].
    by apply (nearest_at_not_near _ _ _ Hnearest).
Qed.

(** C4, amended. The filter has no recovery for a malformed candidate.  When
    every candidate before it has numeric coordinates whose distance
    computations return, the first candidate that lacks its latitude, or
    else its longitude, makes the filter raise [KeyError] with the name of
    that field, whatever follows it in the input.  And for every trace,
    threshold and sequence of candidates, the filter returns a list only if
    every candidate carries both fields. *)
Theorem filter_pois_near_track_missing_coord (gpx : GPX)
    (pre post : list poi) (bad : poi) (k : string) (max_distance_m : R) :
  Forall numeric_coords pre ->
  distances_return (track_points gpx) pre ->
  first_missing bad k ->
  filter_pois_near_track gpx (pre ++ bad :: post) max_distance_m
  = Raise (KeyError k)
  /\ (forall gpx' pois d,
        returns (filter_pois_near_track gpx' pois d) ->
        Forall has_coords pois).
Proof.
  intros Hwf Hret Hbad. split.
  - by apply filter_loop_missing.
  - intros gpx' pois d. apply filter_loop_returns_has_coords.
Qed.
End FilterFacts.

Lemma numeric_coords_poi_origin : numeric_coords poi_origin.
Proof. exists 0%R, 0%R. split; reflexivity. Qed.

Lemma sample_numeric : Forall numeric_coords [poi_origin].
Proof. constructor; [exact numeric_coords_poi_origin | constructor]. Qed.

Lemma sample_no_lat : first_missing poi_no_lat "lat".
Proof. left. split; reflexivity. Qed.

Lemma filter_pois_near_track_selects_witness :
  Forall numeric_coords [poi_origin]
  /\ distances_return (F := exact_arith) (track_points gpx_two_points)
       [poi_origin]
  /\ exists out,
       filter_pois_near_track (F := exact_arith) gpx_two_points [poi_origin]
         default_distance
       = Ok out
       /\ sublist out [poi_origin].
Proof.
  pose proof (exact_distances_return (track_points gpx_two_points)
                [poi_origin]) as H.
  split; [exact sample_numeric |]. split; [exact H |].
  destruct (filter_pois_near_track_selects (F := exact_arith) gpx_two_points
              [poi_origin] default_distance sample_numeric H)
    as (out & Hrun & _ & Hsub & _).
  exists out. split; [exact Hrun | exact Hsub].
Defined.

(** C4, as the specification states it, fails: a candidate without latitude
    is not skipped.  The filter raises [KeyError] on it and returns nothing,
    so not the list of the remaining candidate either.  The malformed
    candidate comes first: no distance is computed before the exception. *)
Lemma filter_missing_latitude_aborts :
  filter_pois_near_track (F := exact_arith) gpx_two_points
    [poi_no_lat; poi_origin] default_distance
  = Raise (KeyError "lat")
  /\ ~ returns (filter_pois_near_track (F := exact_arith) gpx_two_points
                  [poi_no_lat; poi_origin] default_distance)
  /\ filter_pois_near_track (F := exact_arith) gpx_two_points
       [poi_no_lat; poi_origin] default_distance
     <> Ok [poi_origin].
Proof.
  assert (H : filter_pois_near_track (F := exact_arith) gpx_two_points
                [poi_no_lat; poi_origin] default_distance
              = Raise (KeyError "lat")) by reflexivity.
  split; [exact H |]. rewrite H. split; [| discriminate].
  intros [out Hout]. discriminate.
Qed.

Lemma filter_pois_near_track_missing_coord_witness :
  Forall numeric_coords [poi_origin]
  /\ distances_return (F := exact_arith) (track_points gpx_two_points)
       [poi_origin]
  /\ first_missing poi_no_lat "lat"
  /\ filter_pois_near_track (F := exact_arith) gpx_two_points
       ([poi_origin] ++ poi_no_lat :: [poi_origin]) default_distance
     = Raise (KeyError "lat").
Proof.
  pose proof (exact_distances_return (track_points gpx_two_points)
                [poi_origin]) as H.
  split; [exact sample_numeric |]. split; [exact H |].
  split; [exact sample_no_lat |].
  exact (proj1 (filter_pois_near_track_missing_coord (F := exact_arith)
                  gpx_two_points [poi_origin] [poi_origin] poi_no_lat "lat"
                  default_distance sample_numeric H sample_no_lat)).
Defined.

(** ** Waypoint merger *)

Lemma add_waypoints_tracks (gpx : GPX) (pois : list poi) :
  tracks (add_waypoints_to_gpx gpx pois).1 = tracks gpx.
Proof.
  revert gpx. induction pois as [| p pois IH]; intros gpx; simpl; [done |].
  destruct (getitem p "lat"); [| done].
  destruct (getitem p "lon"); [| done].
  by rewrite IH.
Qed.

Lemma add_waypoints_prefix (gpx : GPX) (pois : list poi) :
  exists new,
    waypoints (add_waypoints_to_gpx gpx pois).1 = waypoints gpx ++ new.
Proof.
  revert gpx. induction pois as [| p pois IH]; intros gpx; simpl.
  - exists []. by rewrite app_nil_r.
  - destruct (getitem p "lat") as [lat |]; [| exists []; by rewrite app_nil_r].
    destruct (getitem p "lon") as [lon |]; [| exists []; by rewrite app_nil_r].
    destruct (IH (append_waypoint gpx (water_waypoint lat lon))) as (new & ->).
    simpl. rewrite <- app_assoc. eauto.
Qed.

Lemma add_waypoints_spec (gpx : GPX) (pois : list poi) :
  Forall has_coords pois ->
  exists new,
    add_waypoints_to_gpx gpx pois
    = ({| tracks := tracks gpx; waypoints := waypoints gpx ++ new |}, None)
    /\ Forall2 is_water_waypoint pois new.
Proof.
  intros Hwf. revert gpx.
  induction Hwf as [| p pois ([lat Hlat] & [lon Hlon]) _ IH]; intros gpx.
  - exists []. simpl. rewrite app_nil_r. by destruct gpx.
  - simpl. unfold getitem. rewrite Hlat, Hlon.
    destruct (IH (append_waypoint gpx (water_waypoint lat lon)))
      as (new & -> & Hnew).
    exists (water_waypoint lat lon :: new). simpl. rewrite <- app_assoc.
    split; [done |]. constructor; [| done]. by repeat split.
Qed.

(** C6. For candidates that carry both coordinate fields (as every accepted
    candidate does) the merger returns normally; the waypoint list of the
    trace is the old list followed by one new waypoint per candidate, in the
    order of the candidates, so its length grows by the number of
    candidates; each new waypoint has the coordinates of its candidate, the
    name and description "Water" and the symbol "water-drop". *)
Theorem add_waypoints_to_gpx_appends (gpx : GPX) (pois : list poi) :
  Forall has_coords pois ->
  exists gpx' new,
    add_waypoints_to_gpx gpx pois = (gpx', None)
    /\ waypoints gpx' = waypoints gpx ++ new
    /\ length (waypoints gpx') = (length (waypoints gpx) + length pois)%nat
    /\ Forall2 is_water_waypoint pois new.
Proof.
  intros Hwf. destruct (add_waypoints_spec gpx pois Hwf) as (new & Hrun & Hnew).
  eexists _, new. split; [exact Hrun |]. simpl. split; [done |].
  split; [| done].
  rewrite length_app. by rewrite (Forall2_length _ _ _ Hnew).
Qed.

Lemma has_coords_poi_origin : has_coords poi_origin.
Proof. split; eexists; reflexivity. Qed.

Lemma add_waypoints_to_gpx_appends_witness :
  Forall has_coords [poi_origin; poi_origin]
  /\ exists gpx',
       add_waypoints_to_gpx gpx_two_points [poi_origin; poi_origin]
       = (gpx', None)
       /\ length (waypoints gpx') = 2%nat.
Proof.
  assert (H : Forall has_coords [poi_origin; poi_origin])
    by (repeat (constructor; [exact has_coords_poi_origin |]); constructor).
  split; [exact H |].
  destruct (add_waypoints_to_gpx_appends gpx_two_points
              [poi_origin; poi_origin] H) as (gpx' & new & Hrun & _ & Hlen & _).
  exists gpx'. split; [exact Hrun | exact Hlen].
Defined.

(** The merge of the sample candidate into the sample trace. *)
Example add_waypoints_origin :
  add_waypoints_to_gpx gpx_two_points [poi_origin]
  = ({| tracks := tracks gpx_two_points;
        waypoints := [water_waypoint (JNum 0) (JNum 0)] |}, None).
Proof. reflexivity. Qed.

(** C7. Whatever the trace and the candidates, and whether the merger
    returns or raises, the tracks of the trace after the call are the tracks
    before it: the same segments with the same points in the same order.
    Only the waypoint list changes, and only by growing at its end. *)
Theorem add_waypoints_to_gpx_frame (gpx : GPX) (pois : list poi) :
  tracks (add_waypoints_to_gpx gpx pois).1 = tracks gpx
  /\ track_points (add_waypoints_to_gpx gpx pois).1 = track_points gpx
  /\ exists new,
       waypoints (add_waypoints_to_gpx gpx pois).1 = waypoints gpx ++ new.
Proof.
  pose proof (add_waypoints_tracks gpx pois) as Ht.
  split; [exact Ht |]. split; [| apply add_waypoints_prefix].
  unfold track_points. by rewrite Ht.
Qed.

(** ** Query builder *)

Lemma posted_pure {A} (r : result A) (w : world) : posted (pure r) w = [].
Proof. unfold posted, pure. simpl. apply drop_all. Qed.

Lemma query_POIs_run (pois : list POI) (s w n e : R) (wd : world) :
  query_POIs pois s w n e wd =
  match query_text pois s w n e with
  | Ok q => requests_post q wd
  | Raise ex => (Raise ex, wd)
  end.
Proof. unfold query_POIs, pbind, pure. by destruct (query_text _ _ _ _ _). Qed.

(** What [query_POIs] posts is the text it built, and nothing when building
    it raised. *)
Lemma posted_query_POIs (pois : list POI) (s w n e : R) (wd : world) :
  posted (query_POIs pois s w n e) wd =
  match query_text pois s w n e with
  | Ok q => [q]
  | Raise _ => []
  end.
Proof.
  unfold posted. rewrite query_POIs_run.
  destruct (query_text _ _ _ _ _); simpl.
  - by rewrite drop_app_length.
  - apply drop_all.
Qed.

Lemma query_snacks_and_drinks_run (amenities naturals : list string)
    (s w n e : R) (wd : world) :
  query_snacks_and_drinks amenities naturals s w n e wd
  = (Raise (UnboundLocalError "pois"), wd).
Proof. reflexivity. Qed.

(** The text for an empty collection of categories: the header, an empty
    union block and the output statement. *)
Example query_text_no_category (s w n e : R) :
  query_text [] s w n e
  = Ok ("[out:json][timeout:25];" +:+ newline +:+ "(" +:+ newline
        +:+ ");" +:+ newline +:+ "out body;").
Proof. reflexivity. Qed.

(** The clause text that [get_query_line] computes for the category
    amenity=drinking_water and then drops. *)
Example query_line_text_drinking_water (area : Area) :
  query_line_text
    {| _primary := Some "amenity"; _secondary := Some "drinking_water" |} area
  = "node[" +:+ dquote +:+ "amenity" +:+ dquote +:+ "=" +:+ dquote
    +:+ "drinking_water" +:+ dquote +:+ "](str(area));".
Proof. reflexivity. Qed.

(** C3 does not hold of the code. [get_query_line] evaluates to [None] for
    every category and area, so as soon as the collection has one category
    the concatenation with the indentation raises [TypeError]: no query text
    is built and nothing is posted.  The category that [POI()] constructs
    shows it on the box (0, 0, 1, 1). *)
Theorem query_POIs_category_raises (p : POI) (pois : list POI) (area : Area)
    (s w n e : R) (wd : world) :
  get_query_line p area = PNone
  /\ query_text (p :: pois) s w n e = Raise TypeError
  /\ query_POIs (p :: pois) s w n e wd = (Raise TypeError, wd)
  /\ query_POIs [POI___init__] 0 0 1 1 wd = (Raise TypeError, wd).
Proof. repeat split. Qed.

(** C8. The query builder is deterministic: for a given collection of
    categories and a given box, what [query_POIs] posts is the same in any
    two worlds, whatever the server answers and whatever was posted before
    (it is the text built from the categories and the box alone, or nothing
    when building it raises); and [query_snacks_and_drinks] posts the same,
    namely nothing, in any two worlds and for any two iteration orders of
    its sets. *)
Theorem query_builder_deterministic (pois : list POI) (s w n e : R)
    (w1 w2 : world) (amenities1 amenities2 naturals1 naturals2 : list string) :
  posted (query_POIs pois s w n e) w1 = posted (query_POIs pois s w n e) w2
  /\ posted (query_POIs pois s w n e) w1
     = match query_text pois s w n e with
       | Ok q => [q]
       | Raise _ => []
       end
  /\ posted (query_snacks_and_drinks amenities1 naturals1 s w n e) w1
     = posted (query_snacks_and_drinks amenities2 naturals2 s w n e) w2.
Proof.
  split; [by rewrite !posted_query_POIs |].
  split; [apply posted_query_POIs |].
  unfold posted. rewrite !query_snacks_and_drinks_run. simpl.
  by rewrite !drop_all.
Qed.

(** C10. Whatever the argument, constructing an [Amenity] or a [Natural]
    raises [NameError] (on the name [args]); hence [query_drinking_water]
    raises [NameError] for every box and in every world, and leaves the
    world as it was: no query text was built and no request was posted. *)
Theorem category_constructors_raise {A} (secondary : A) (s w n e : R)
    (wd : world) :
  Amenity secondary = Raise (NameError "args")
  /\ Natural secondary = Raise (NameError "args")
  /\ query_drinking_water s w n e wd = (Raise (NameError "args"), wd)
  /\ posted (query_drinking_water s w n e) wd = [].
Proof.
  repeat split. unfold posted. simpl. apply drop_all.
Qed.

(** With a trace that has a point, the pipeline gets past the bounding box
    and stops in [query_drinking_water]. *)
Example main_pipeline_two_points {F : Arith R} (distance : R) (wd : world) :
  main_pipeline gpx_two_points distance wd = (Raise (NameError "args"), wd).
Proof.
  unfold main_pipeline, pbind, pure.
  rewrite get_bounds_two_points. reflexivity.
Qed.

(** * Further properties *)

(** ** Stable selections *)

Lemma sub_selection_unique {A} (P Q : A -> Prop) (l o1 o2 : list A) :
  (forall x, x ∈ l -> (P x <-> Q x)) ->
  sub_selection P l o1 -> sub_selection Q l o2 -> o1 = o2.
Proof.
  intros Heq H1. revert o2.
  induction H1 as [| x l o1 Hx _ IH | x l o1 Hx _ IH]; intros o2 H2.
  - by inversion H2.
  - assert (HQ : Q x) by (apply Heq; [left | done]).
    inversion H2; subst; [| contradiction].
    f_equal. apply IH; [| done]. intros y Hy. apply Heq. by right.
  - assert (HQ : ~ Q x) by (intros HQ; apply Hx, Heq; [left | done]).
    inversion H2; subst; [contradiction |].
    apply IH; [| done]. intros y Hy. apply Heq. by right.
Qed.

Lemma sub_selection_mono {A} (P Q : A -> Prop) (l o1 o2 : list A) :
  (forall x, x ∈ l -> P x -> Q x) ->
  sub_selection P l o1 -> sub_selection Q l o2 -> sublist o1 o2.
Proof.
  intros Himp H1. revert o2.
  induction H1 as [| x l o1 Hx _ IH | x l o1 Hx _ IH]; intros o2 H2.
  - inversion H2. constructor.
  - assert (HQ : Q x) by (apply Himp; [left | done]).
    inversion H2; subst; [| contradiction].
    apply sublist_skip, IH; [| done]. intros y Hy. apply Himp. by right.
  - inversion H2; subst.
    + apply sublist_cons, IH; [| done]. intros y Hy. apply Himp. by right.
    + apply IH; [| done]. intros y Hy. apply Himp. by right.
Qed.

Lemma sub_selection_all {A} (P : A -> Prop) (l : list A) :
  (forall x, x ∈ l -> P x) -> sub_selection P l l.
Proof.
  induction l as [| x l IH]; intros H; [constructor |].
  apply sel_keep; [apply H; left |]. apply IH. intros y Hy. apply H. by right.
Qed.

Lemma sub_selection_none {A} (P : A -> Prop) (l : list A) :
  (forall x, x ∈ l -> ~ P x) -> sub_selection P l [].
Proof.
  induction l as [| x l IH]; intros H; [constructor |].
  apply sel_drop; [apply H; left |]. apply IH. intros y Hy. apply H. by right.
Qed.

Lemma sub_selection_app {A} (P : A -> Prop) (l1 l2 o1 o2 : list A) :
  sub_selection P l1 o1 -> sub_selection P l2 o2 ->
  sub_selection P (l1 ++ l2) (o1 ++ o2).
Proof. induction 1; intros H2; simpl; [done | |]; constructor; auto. Qed.

(** ** More on the proximity filter *)

Lemma numeric_has_coords (p : poi) : numeric_coords p -> has_coords p.
Proof. intros (lat & lon & Hlat & Hlon). split; eauto. Qed.

Lemma sample_has_points : track_points gpx_two_points <> [].
Proof. simpl. discriminate. Qed.

Lemma sample_same_points : same_points gpx_two_points gpx_regrouped.
Proof.
  intros pt.
  change (track_points gpx_two_points) with [pt_origin; pt_north].
  change (track_points gpx_regrouped) with [pt_north; pt_origin].
  rewrite !elem_of_cons, !elem_of_nil. tauto.
Qed.

Lemma sample_text_has_coords : Forall has_coords [poi_text_lat].
Proof. constructor; [split; eexists; reflexivity | constructor]. Qed.

Lemma sample_text_non_numeric : non_numeric_coords poi_text_lat.
Proof.
  exists (JStr "0"), (JNum 0). split; [reflexivity |]. split; [reflexivity |].
  intros (x & y & Hx & _). discriminate.
Qed.

Lemma sample_distances_return (gpx : GPX) (pois : list poi) :
  distances_return (F := exact_arith) (track_points gpx) pois.
Proof. apply exact_distances_return. Qed.

Section FilterLaws.
Context {F : Arith R}.

(** On numeric candidates whose distance computations return, the filter
    returns the stable selection of the near ones, which are numeric
    candidates again. *)
Lemma filter_run (gpx : GPX) (pois : list poi) (d : R) :
  Forall numeric_coords pois -> distances_return (track_points gpx) pois ->
  exists out, filter_pois_near_track gpx pois d = Ok out
              /\ sub_selection (near_points (track_points gpx) d) pois out
              /\ Forall numeric_coords out
              /\ distances_return (track_points gpx) out.
Proof.
  intros Hwf Hret.
  destruct (filter_loop_spec (track_points gpx) d pois [] Hwf Hret)
    as (out & Hrun & Hsel).
  exists out. split; [exact Hrun |]. split; [exact Hsel |].
  assert (Hsub : forall p, p ∈ out -> p ∈ pois)
    by (intros p Hp; by apply (sub_selection_elem_of _ _ _ Hsel)).
  split.
  - apply Forall_forall. intros x Hx. rewrite Forall_forall in Hwf. auto.
  - by eapply distances_return_subset.
Qed.

(** X8. The filter is monotone in its threshold: when the distance
    computations return, what it keeps with a threshold is a sublist of
    what it keeps with any larger threshold. *)
Theorem filter_threshold_monotone (gpx : GPX) (pois : list poi) (d1 d2 : R) :
  Forall numeric_coords pois -> distances_return (track_points gpx) pois ->
  (d1 <= d2)%R ->
  exists out1 out2,
    filter_pois_near_track gpx pois d1 = Ok out1
    /\ filter_pois_near_track gpx pois d2 = Ok out2
    /\ sublist out1 out2.
Proof.
  intros Hwf Hret Hle.
  destruct (filter_run gpx pois d1 Hwf Hret) as (o1 & R1 & S1 & _).
  destruct (filter_run gpx pois d2 Hwf Hret) as (o2 & R2 & S2 & _).
  exists o1, o2. split; [done |]. split; [done |].
  eapply sub_selection_mono; [| exact S1 | exact S2].
  intros p _ (lat & lon & pt & Hlat & Hlon & Hpt & h & Hh & Hlt).
  exists lat, lon, pt. repeat split; try done. exists h. split; [done | lra].
Qed.

(** X9. Filtering is idempotent: when the distance computations return,
    filtering the output of the filter again, with the same trace and
    threshold, returns it unchanged. *)
Theorem filter_idempotent (gpx : GPX) (pois : list poi) (max_distance_m : R) :
  Forall numeric_coords pois -> distances_return (track_points gpx) pois ->
  exists out,
    filter_pois_near_track gpx pois max_distance_m = Ok out
    /\ filter_pois_near_track gpx out max_distance_m = Ok out.
Proof.
  intros Hwf Hret.
  destruct (filter_run gpx pois max_distance_m Hwf Hret)
    as (out & Hrun & Hsel & Hout & Hret').
  exists out. split; [done |].
  destruct (filter_run gpx out max_distance_m Hout Hret')
    as (out' & Hrun' & Hsel' & _).
  rewrite Hrun'. f_equal.
  eapply sub_selection_unique; [| exact Hsel' | apply sub_selection_all].
  - done.
  - intros x Hx. by apply (sub_selection_elem_of _ _ _ Hsel).
Qed.

(** X10. The filter treats each candidate on its own: when the distance
    computations return, filtering the concatenation of two candidate lists
    gives the concatenation of the two filtered lists. *)
Theorem filter_distributes_over_append (gpx : GPX) (pois1 pois2 : list poi)
    (max_distance_m : R) :
  Forall numeric_coords pois1 -> Forall numeric_coords pois2 ->
  distances_return (track_points gpx) (pois1 ++ pois2) ->
  exists out1 out2,
    filter_pois_near_track gpx pois1 max_distance_m = Ok out1
    /\ filter_pois_near_track gpx pois2 max_distance_m = Ok out2
    /\ filter_pois_near_track gpx (pois1 ++ pois2) max_distance_m
       = Ok (out1 ++ out2).
Proof.
  intros H1 H2 Hret.
  assert (Hret1 : distances_return (track_points gpx) pois1)
    by (eapply distances_return_subset; [| exact Hret];
        intros p Hp; apply elem_of_app; by left).
  assert (Hret2 : distances_return (track_points gpx) pois2)
    by (eapply distances_return_subset; [| exact Hret];
        intros p Hp; apply elem_of_app; by right).
  destruct (filter_run gpx pois1 max_distance_m H1 Hret1)
    as (o1 & R1 & S1 & _).
  destruct (filter_run gpx pois2 max_distance_m H2 Hret2)
    as (o2 & R2 & S2 & _).
  destruct (filter_run gpx (pois1 ++ pois2) max_distance_m)
    as (o & Rr & Ss & _); [by apply Forall_app | done |].
  exists o1, o2. split; [done |]. split; [done |]. rewrite Rr. f_equal.
  eapply sub_selection_unique; [| exact Ss | by apply sub_selection_app].
  done.
Qed.

(** X11. When the distance computations return, the filter depends on the
    trace only through its set of points: two traces with the same points,
    in any order and grouped into segments and tracks in any way, give the
    same output. *)
Theorem filter_depends_on_point_set (gpx1 gpx2 : GPX) (pois : list poi)
    (max_distance_m : R) :
  Forall numeric_coords pois -> distances_return (track_points gpx1) pois ->
  same_points gpx1 gpx2 ->
  returns (filter_pois_near_track gpx1 pois max_distance_m)
  /\ filter_pois_near_track gpx1 pois max_distance_m
     = filter_pois_near_track gpx2 pois max_distance_m.
Proof.
  intros Hwf Hret Hsame.
  assert (Hret2 : distances_return (track_points gpx2) pois)
    by (intros p lat lon pt Hp Hlat Hlon Hpt;
        apply (Hret p); [done | done | done | by apply Hsame]).
  destruct (filter_run gpx1 pois max_distance_m Hwf Hret)
    as (o1 & R1 & S1 & _).
  destruct (filter_run gpx2 pois max_distance_m Hwf Hret2)
    as (o2 & R2 & S2 & _).
  split; [by exists o1 |]. rewrite R1, R2. f_equal.
  eapply sub_selection_unique; [| exact S1 | exact S2].
  intros p _. split.
  - intros (lat & lon & pt & ? & ? & Hpt & ?). exists lat, lon, pt.
    repeat split; try done. by apply Hsame.
  - intros (lat & lon & pt & ? & ? & Hpt & ?). exists lat, lon, pt.
    repeat split; try done. by apply Hsame.
Qed.

Lemma filter_loop_no_point (d : R) (pois acc : list poi) :
  Forall has_coords pois -> filter_loop [] d pois acc = Ok acc.
Proof.
  intros Hwf. revert acc.
  induction Hwf as [| p pois ([lat Hlat] & [lon Hlon]) _ IH]; intros acc;
    [done |].
  simpl. unfold getitem. rewrite Hlat, Hlon. simpl. apply IH.
Qed.

(** X12. On a trace without any point the filter returns the empty list for
    candidates that carry both coordinate fields, even when the coordinates
    are not numbers: no distance is ever computed. *)
Theorem filter_empty_track_keeps_nothing (gpx : GPX) (pois : list poi)
    (max_distance_m : R) :
  track_points gpx = [] -> Forall has_coords pois ->
  filter_pois_near_track gpx pois max_distance_m = Ok [].
Proof.
  intros He Hwf. unfold filter_pois_near_track. rewrite He.
  by apply filter_loop_no_point.
Qed.

(** X13. On a trace that has a point, the first candidate whose latitude or
    longitude is present but not a number makes the filter raise
    [TypeError], when the candidates before it have numeric coordinates
    whose distance computations return. *)
Theorem filter_non_numeric_raises (gpx : GPX) (pre post : list poi)
    (bad : poi) (max_distance_m : R) :
  Forall numeric_coords pre -> distances_return (track_points gpx) pre ->
  non_numeric_coords bad ->
  track_points gpx <> [] ->
  filter_pois_near_track gpx (pre ++ bad :: post) max_distance_m
  = Raise TypeError.
Proof.
  intros Hwf Hret (lat & lon & Hlat & Hlon & Hbad) Hne.
  unfold filter_pois_near_track. generalize (@nil poi) as acc.
  induction Hwf as [| p pre (la & lo & Hla & Hlo) _ IH]; intros acc.
  - simpl. unfold getitem. rewrite Hlat, Hlon. simpl.
    destruct (track_points gpx) as [| pt pts]; [done |]. simpl.
    destruct lat, lon; try done. exfalso. apply Hbad. eauto.
  - apply distances_return_cons in Hret as [Hp Hret].
    simpl. unfold getitem. rewrite Hla, Hlo. simpl.
    destruct (any_near_numeric la lo max_distance_m (track_points gpx))
      as (b & -> & _); [intros pt Hpt; by apply Hp |].
    simpl. by apply IH.
Qed.
End FilterLaws.

Lemma filter_threshold_monotone_witness :
  Forall numeric_coords [poi_origin]
  /\ distances_return (F := exact_arith) (track_points gpx_two_points)
       [poi_origin]
  /\ (0 <= 100)%R
  /\ exists out1 out2,
       filter_pois_near_track (F := exact_arith) gpx_two_points [poi_origin] 0
       = Ok out1
       /\ filter_pois_near_track (F := exact_arith) gpx_two_points
            [poi_origin] 100
          = Ok out2
       /\ sublist out1 out2.
Proof.
  assert (H : (0 <= 100)%R) by lra.
  split; [exact sample_numeric |].
  split; [exact (sample_distances_return gpx_two_points [poi_origin]) |].
  split; [exact H |].
  exact (filter_threshold_monotone (F := exact_arith) gpx_two_points
           [poi_origin] 0 100 sample_numeric
           (sample_distances_return gpx_two_points [poi_origin]) H).
Defined.

Lemma filter_idempotent_witness :
  Forall numeric_coords [poi_origin]
  /\ distances_return (F := exact_arith) (track_points gpx_two_points)
       [poi_origin]
  /\ exists out,
       filter_pois_near_track (F := exact_arith) gpx_two_points [poi_origin]
         100
       = Ok out
       /\ filter_pois_near_track (F := exact_arith) gpx_two_points out 100
          = Ok out.
Proof.
  split; [exact sample_numeric |].
  split; [exact (sample_distances_return gpx_two_points [poi_origin]) |].
  exact (filter_idempotent (F := exact_arith) gpx_two_points [poi_origin] 100
           sample_numeric
           (sample_distances_return gpx_two_points [poi_origin])).
Defined.

Lemma filter_distributes_over_append_witness :
  Forall numeric_coords [poi_origin]
  /\ distances_return (F := exact_arith) (track_points gpx_two_points)
       ([poi_origin] ++ [poi_origin])
  /\ exists out1 out2,
       filter_pois_near_track (F := exact_arith) gpx_two_points [poi_origin]
         100
       = Ok out1
       /\ filter_pois_near_track (F := exact_arith) gpx_two_points
            [poi_origin] 100
          = Ok out2
       /\ filter_pois_near_track (F := exact_arith) gpx_two_points
            ([poi_origin] ++ [poi_origin]) 100
          = Ok (out1 ++ out2).
Proof.
  split; [exact sample_numeric |].
  split; [exact (sample_distances_return gpx_two_points
                   ([poi_origin] ++ [poi_origin])) |].
  exact (filter_distributes_over_append (F := exact_arith) gpx_two_points
           [poi_origin] [poi_origin] 100 sample_numeric sample_numeric
           (sample_distances_return gpx_two_points
              ([poi_origin] ++ [poi_origin]))).
Defined.

Lemma filter_depends_on_point_set_witness :
  Forall numeric_coords [poi_origin]
  /\ distances_return (F := exact_arith) (track_points gpx_two_points)
       [poi_origin]
  /\ same_points gpx_two_points gpx_regrouped
  /\ filter_pois_near_track (F := exact_arith) gpx_two_points [poi_origin] 100
     = filter_pois_near_track (F := exact_arith) gpx_regrouped [poi_origin]
         100.
Proof.
  split; [exact sample_numeric |].
  split; [exact (sample_distances_return gpx_two_points [poi_origin]) |].
  split; [exact sample_same_points |].
  exact (proj2 (filter_depends_on_point_set (F := exact_arith) gpx_two_points
                  gpx_regrouped [poi_origin] 100 sample_numeric
                  (sample_distances_return gpx_two_points [poi_origin])
                  sample_same_points)).
Defined.

Lemma filter_empty_track_keeps_nothing_witness :
  track_points gpx_no_point = [] /\ Forall has_coords [poi_text_lat]
  /\ filter_pois_near_track (F := exact_arith) gpx_no_point [poi_text_lat] 100
     = Ok [].
Proof.
  assert (H : track_points gpx_no_point = []) by reflexivity.
  split; [exact H |]. split; [exact sample_text_has_coords |].
  exact (filter_empty_track_keeps_nothing (F := exact_arith) gpx_no_point
           [poi_text_lat] 100 H sample_text_has_coords).
Defined.

Lemma filter_non_numeric_raises_witness :
  Forall numeric_coords [poi_origin]
  /\ distances_return (F := exact_arith) (track_points gpx_two_points)
       [poi_origin]
  /\ non_numeric_coords poi_text_lat
  /\ track_points gpx_two_points <> []
  /\ filter_pois_near_track (F := exact_arith) gpx_two_points
       ([poi_origin] ++ poi_text_lat :: [poi_origin]) 100
     = Raise TypeError.
Proof.
  split; [exact sample_numeric |].
  split; [exact (sample_distances_return gpx_two_points [poi_origin]) |].
  split; [exact sample_text_non_numeric |].
  split; [exact sample_has_points |].
  exact (filter_non_numeric_raises (F := exact_arith) gpx_two_points
           [poi_origin] [poi_origin] poi_text_lat 100 sample_numeric
           (sample_distances_return gpx_two_points [poi_origin])
           sample_text_non_numeric sample_has_points).
Defined.

(** ** More on the waypoint merger *)

Lemma add_waypoints_app (gpx : GPX) (l1 l2 : list poi) :
  add_waypoints_to_gpx gpx (l1 ++ l2)
  = match add_waypoints_to_gpx gpx l1 with
    | (gpx1, None) => add_waypoints_to_gpx gpx1 l2
    | (gpx1, Some e) => (gpx1, Some e)
    end.
Proof.
  revert gpx. induction l1 as [| p l1 IH]; intros gpx; simpl; [done |].
  destruct (getitem p "lat"); [| done].
  destruct (getitem p "lon"); [| done].
  apply IH.
Qed.

Lemma water_waypoint_unique (p : poi) (w w' : GPXWaypoint) :
  is_water_waypoint p w -> is_water_waypoint p w' -> w = w'.
Proof.
  intros (Hla & Hlo & Hn & Hd & Hs) (Hla' & Hlo' & Hn' & Hd' & Hs').
  destruct w, w'; simpl in *. congruence.
Qed.

Lemma water_waypoints_unique (pois : list poi) (ws ws' : list GPXWaypoint) :
  Forall2 is_water_waypoint pois ws -> Forall2 is_water_waypoint pois ws' ->
  ws' = ws.
Proof.
  intros H. revert ws'. induction H as [| p w ps ws Hw _ IH]; intros ws' H'.
  - by inversion H'.
  - inversion H'; subst.
    f_equal; [by eapply water_waypoint_unique | by apply IH].
Qed.

Lemma sample_has_coords : Forall has_coords [poi_origin].
Proof. constructor; [exact has_coords_poi_origin | constructor]. Qed.

(** X15. Merging a concatenation of candidate lists is merging the first
    list and then, if that did not raise, the second into the resulting
    trace; when the first raises, the second is never looked at. *)
Theorem add_waypoints_to_gpx_sequential (gpx : GPX) (pois1 pois2 : list poi) :
  add_waypoints_to_gpx gpx (pois1 ++ pois2)
  = match add_waypoints_to_gpx gpx pois1 with
    | (gpx1, None) => add_waypoints_to_gpx gpx1 pois2
    | (gpx1, Some e) => (gpx1, Some e)
    end.
Proof. apply add_waypoints_app. Qed.

(** X16. The merger is not atomic: when a candidate lacks a coordinate field
    it raises [KeyError] with the name of the field, and the trace keeps the
    waypoints already appended for the candidates before it; nothing is
    appended for the malformed candidate or for those after it. *)
Theorem add_waypoints_to_gpx_partial_update (gpx : GPX)
    (pre post : list poi) (bad : poi) (k : string) :
  Forall has_coords pre -> first_missing bad k ->
  exists new,
    add_waypoints_to_gpx gpx (pre ++ bad :: post)
    = ({| tracks := tracks gpx; waypoints := waypoints gpx ++ new |},
       Some (KeyError k))
    /\ Forall2 is_water_waypoint pre new.
Proof.
  intros Hwf Hbad.
  destruct (add_waypoints_spec gpx pre Hwf) as (new & Hrun & Hnew).
  exists new. split; [| done].
  rewrite add_waypoints_app, Hrun. simpl. unfold getitem.
  destruct Hbad as [[-> ->] | ([v ->] & -> & ->)]; done.
Qed.

Lemma add_waypoints_to_gpx_partial_update_witness :
  Forall has_coords [poi_origin] /\ first_missing poi_no_lat "lat"
  /\ exists new,
       add_waypoints_to_gpx gpx_two_points
         ([poi_origin] ++ poi_no_lat :: [poi_origin])
       = ({| tracks := tracks gpx_two_points;
             waypoints := waypoints gpx_two_points ++ new |},
          Some (KeyError "lat"))
       /\ Forall2 is_water_waypoint [poi_origin] new.
Proof.
  split; [exact sample_has_coords |]. split; [exact sample_no_lat |].
  exact (add_waypoints_to_gpx_partial_update gpx_two_points [poi_origin]
           [poi_origin] poi_no_lat "lat" sample_has_coords sample_no_lat).
Defined.

(** X17. The merger is not idempotent: merging the same candidates a second
    time appends the same waypoints once more after the first copies. *)
Theorem add_waypoints_to_gpx_twice_duplicates (gpx : GPX) (pois : list poi) :
  Forall has_coords pois ->
  exists gpx1 gpx2 new,
    add_waypoints_to_gpx gpx pois = (gpx1, None)
    /\ add_waypoints_to_gpx gpx1 pois = (gpx2, None)
    /\ Forall2 is_water_waypoint pois new
    /\ waypoints gpx1 = waypoints gpx ++ new
    /\ waypoints gpx2 = waypoints gpx ++ new ++ new.
Proof.
  intros Hwf.
  destruct (add_waypoints_spec gpx pois Hwf) as (new & Hrun & Hnew).
  destruct (add_waypoints_spec
              {| tracks := tracks gpx; waypoints := waypoints gpx ++ new |}
              pois Hwf) as (new' & Hrun' & Hnew').
  assert (new' = new) as -> by (by eapply water_waypoints_unique).
  eexists _, _, new. split; [exact Hrun |]. split; [exact Hrun' |].
  simpl. rewrite <- app_assoc. done.
Qed.

Lemma add_waypoints_to_gpx_twice_duplicates_witness :
  Forall has_coords [poi_origin]
  /\ exists gpx1 gpx2 new,
       add_waypoints_to_gpx gpx_two_points [poi_origin] = (gpx1, None)
       /\ add_waypoints_to_gpx gpx1 [poi_origin] = (gpx2, None)
       /\ Forall2 is_water_waypoint [poi_origin] new
       /\ waypoints gpx1 = waypoints gpx_two_points ++ new
       /\ waypoints gpx2 = waypoints gpx_two_points ++ new ++ new.
Proof.
  split; [exact sample_has_coords |].
  exact (add_waypoints_to_gpx_twice_duplicates gpx_two_points [poi_origin]
           sample_has_coords).
Defined.

(** X18. The filter and the merger fit together: whatever the filter returns
    on numeric candidates whose distance computations return is merged
    without an exception; the trace gains exactly one waypoint per kept
    candidate, at most one per candidate, and its tracks are unchanged. *)
Theorem filter_then_merge_succeeds {F : Arith R} (gpx : GPX)
    (pois : list poi) (max_distance_m : R) :
  Forall numeric_coords pois -> distances_return (track_points gpx) pois ->
  exists out gpx',
    filter_pois_near_track gpx pois max_distance_m = Ok out
    /\ add_waypoints_to_gpx gpx out = (gpx', None)
    /\ length (waypoints gpx') = (length (waypoints gpx) + length out)%nat
    /\ (length out <= length pois)%nat
    /\ tracks gpx' = tracks gpx.
Proof.
  intros Hwf Hret.
  destruct (filter_run gpx pois max_distance_m Hwf Hret)
    as (out & Hrun & Hsel & Hout & _).
  assert (Hc : Forall has_coords out)
    by (eapply Forall_impl; [exact Hout | apply numeric_has_coords]).
  destruct (add_waypoints_spec gpx out Hc) as (new & Hadd & Hnew).
  eexists out, _. split; [done |]. split; [exact Hadd |]. simpl.
  split; [| split; [| done]].
  - rewrite length_app. by rewrite (Forall2_length _ _ _ Hnew).
  - apply sublist_length. by eapply sub_selection_sublist.
Qed.

Lemma filter_then_merge_succeeds_witness :
  Forall numeric_coords [poi_origin]
  /\ distances_return (F := exact_arith) (track_points gpx_two_points)
       [poi_origin]
  /\ exists out gpx',
       filter_pois_near_track (F := exact_arith) gpx_two_points [poi_origin]
         100
       = Ok out
       /\ add_waypoints_to_gpx gpx_two_points out = (gpx', None).
Proof.
  split; [exact sample_numeric |].
  split; [exact (sample_distances_return gpx_two_points [poi_origin]) |].
  destruct (filter_then_merge_succeeds (F := exact_arith) gpx_two_points
              [poi_origin] 100 sample_numeric
              (sample_distances_return gpx_two_points [poi_origin]))
    as (out & gpx' & H1 & H2 & _).
  exists out, gpx'. split; [exact H1 | exact H2].
Defined.

(** X19. Waypoints never enter the geometry: after a merge, of any
    candidates and whether it raised or not, [get_bounds] and the filter
    give on the trace what they gave before the merge. *)
Theorem merge_leaves_geometry {F : Arith R} (gpx : GPX)
    (pois candidates : list poi) (max_distance_m : R) :
  get_bounds (add_waypoints_to_gpx gpx pois).1 = get_bounds gpx
  /\ filter_pois_near_track (add_waypoints_to_gpx gpx pois).1 candidates
       max_distance_m
     = filter_pois_near_track gpx candidates max_distance_m.
Proof.
  assert (H : track_points (add_waypoints_to_gpx gpx pois).1
              = track_points gpx)
    by (unfold track_points; by rewrite add_waypoints_tracks).
  unfold get_bounds, filter_pois_near_track. by rewrite H.
Qed.

(** ** More on the bounding box *)

Lemma get_bounds_box (gpx : GPX) :
  track_points gpx <> [] ->
  exists south west north east,
    get_bounds gpx = Ok (south, west, north, east)
    /\ (forall pt, pt ∈ track_points gpx ->
          (south <= latitude pt <= north)%R
          /\ (west <= longitude pt <= east)%R)
    /\ (exists pt, pt ∈ track_points gpx /\ latitude pt = south)
    /\ (exists pt, pt ∈ track_points gpx /\ longitude pt = west)
    /\ (exists pt, pt ∈ track_points gpx /\ latitude pt = north)
    /\ (exists pt, pt ∈ track_points gpx /\ longitude pt = east).
Proof.
  intros Hne.
  assert (Hlat : map latitude (track_points gpx) <> [])
    by (destruct (track_points gpx); done).
  assert (Hlon : map longitude (track_points gpx) <> [])
    by (destruct (track_points gpx); done).
  destruct (py_min_spec _ Hlat) as (south & Es & Is & Ls).
  destruct (py_max_spec _ Hlat) as (north & En & In_ & Ln).
  destruct (py_min_spec _ Hlon) as (west & Ew & Iw & Lw).
  destruct (py_max_spec _ Hlon) as (east & Ee & Ie & Le).
  exists south, west, north, east.
  split; [unfold get_bounds; by rewrite Es, En, Ew, Ee |]. split.
  { intros pt Hpt.
    pose proof (list_elem_of_fmap_2 latitude _ _ Hpt) as Hla.
    pose proof (list_elem_of_fmap_2 longitude _ _ Hpt) as Hlo.
    specialize (Ls _ Hla). specialize (Ln _ Hla).
    specialize (Lw _ Hlo). specialize (Le _ Hlo). lra. }
  apply list_elem_of_fmap in Is as (ps & -> & Hps).
  apply list_elem_of_fmap in In_ as (pn & -> & Hpn).
  apply list_elem_of_fmap in Iw as (pw & -> & Hpw).
  apply list_elem_of_fmap in Ie as (pe & -> & Hpe).
  repeat split; eauto.
Qed.

Lemma get_bounds_nested (gpx1 gpx2 : GPX) :
  track_points gpx1 <> [] ->
  (forall pt, pt ∈ track_points gpx1 -> pt ∈ track_points gpx2) ->
  exists s1 w1 n1 e1 s2 w2 n2 e2,
    get_bounds gpx1 = Ok (s1, w1, n1, e1)
    /\ get_bounds gpx2 = Ok (s2, w2, n2, e2)
    /\ (s2 <= s1)%R /\ (w2 <= w1)%R /\ (n1 <= n2)%R /\ (e1 <= e2)%R.
Proof.
  intros Hne Hsub.
  assert (Hne2 : track_points gpx2 <> []).
  { destruct (track_points gpx1) as [| pt pts] eqn:E; [done |].
    intros E2. specialize (Hsub pt ltac:(left)). rewrite E2 in Hsub.
    inversion Hsub. }
  destruct (get_bounds_box gpx1 Hne)
    as (s1 & w1 & n1 & e1 & R1 & _ & (ps & Hps & <-) & (pw & Hpw & <-)
        & (pn & Hpn & <-) & (pe & Hpe & <-)).
  destruct (get_bounds_box gpx2 Hne2)
    as (s2 & w2 & n2 & e2 & R2 & Hin & _).
  exists (latitude ps), (longitude pw), (latitude pn), (longitude pe),
    s2, w2, n2, e2.
  split; [done |]. split; [done |].
  pose proof (Hin _ (Hsub _ Hps)). pose proof (Hin _ (Hsub _ Hpw)).
  pose proof (Hin _ (Hsub _ Hpn)). pose proof (Hin _ (Hsub _ Hpe)). lra.
Qed.

Lemma sample_sub_points (pt : GPXTrackPoint) :
  pt ∈ track_points gpx_one_point -> pt ∈ track_points gpx_two_points.
Proof.
  change (track_points gpx_one_point) with [pt_origin].
  change (track_points gpx_two_points) with [pt_origin; pt_north].
  rewrite !elem_of_cons, !elem_of_nil. tauto.
Qed.

Lemma sample_one_has_points : track_points gpx_one_point <> [].
Proof. simpl. discriminate. Qed.

(** X20. The bounding box grows with the trace: when every point of a
    non-empty trace is also a point of a second trace, the box of the second
    contains the box of the first. *)
Theorem get_bounds_monotone (gpx1 gpx2 : GPX) :
  track_points gpx1 <> [] ->
  (forall pt, pt ∈ track_points gpx1 -> pt ∈ track_points gpx2) ->
  exists s1 w1 n1 e1 s2 w2 n2 e2,
    get_bounds gpx1 = Ok (s1, w1, n1, e1)
    /\ get_bounds gpx2 = Ok (s2, w2, n2, e2)
    /\ (s2 <= s1)%R /\ (w2 <= w1)%R /\ (n1 <= n2)%R /\ (e1 <= e2)%R.
Proof. apply get_bounds_nested. Qed.

Lemma get_bounds_monotone_witness :
  track_points gpx_one_point <> []
  /\ exists s1 w1 n1 e1 s2 w2 n2 e2,
       get_bounds gpx_one_point = Ok (s1, w1, n1, e1)
       /\ get_bounds gpx_two_points = Ok (s2, w2, n2, e2)
       /\ (s2 <= s1)%R /\ (w2 <= w1)%R /\ (n1 <= n2)%R /\ (e1 <= e2)%R.
Proof.
  split; [exact sample_one_has_points |].
  exact (get_bounds_monotone gpx_one_point gpx_two_points
           sample_one_has_points sample_sub_points).
Defined.

(** X21. [get_bounds] depends on the trace only through its set of points:
    two traces with the same points, in any order and grouping, have the
    same bounding box, or both raise. *)
Theorem get_bounds_depends_on_point_set (gpx1 gpx2 : GPX) :
  same_points gpx1 gpx2 -> get_bounds gpx1 = get_bounds gpx2.
Proof.
  intros Hsame.
  destruct (track_points gpx1) as [| pt pts] eqn:E1.
  - assert (E2 : track_points gpx2 = []).
    { destruct (track_points gpx2) as [| q qs] eqn:E2; [done |].
      pose proof (proj2 (Hsame q)) as Hq. rewrite E1, E2 in Hq.
      specialize (Hq ltac:(left)). inversion Hq. }
    by rewrite !get_bounds_empty.
  - assert (Hne1 : track_points gpx1 <> []) by (by rewrite E1).
    assert (Hne2 : track_points gpx2 <> []).
    { intros E2. pose proof (proj1 (Hsame pt)) as Hp. rewrite E1, E2 in Hp.
      specialize (Hp ltac:(left)). inversion Hp. }
    destruct (get_bounds_nested gpx1 gpx2 Hne1)
      as (s1 & w1 & n1 & e1 & s2 & w2 & n2 & e2 & R1 & R2 & ? & ? & ? & ?);
      [intros q; apply Hsame |].
    destruct (get_bounds_nested gpx2 gpx1 Hne2)
      as (s2' & w2' & n2' & e2' & s1' & w1' & n1' & e1' & R2' & R1'
          & ? & ? & ? & ?);
      [intros q; apply Hsame |].
    rewrite R1 in R1'. rewrite R2 in R2'.
    injection R1' as <- <- <- <-. injection R2' as <- <- <- <-.
    rewrite R1, R2. do 2 f_equal; [f_equal; [f_equal |] |]; lra.
Qed.

Lemma get_bounds_depends_on_point_set_witness :
  same_points gpx_two_points gpx_regrouped
  /\ get_bounds gpx_two_points = get_bounds gpx_regrouped.
Proof.
  split; [exact sample_same_points |].
  exact (get_bounds_depends_on_point_set gpx_two_points gpx_regrouped
           sample_same_points).
Defined.

(** ** The pipeline and the query *)

(** X22. The pipeline of [main] never produces a trace and never posts a
    request: for every trace, distance and world it ends with [ValueError]
    when the trace has no point and with [NameError] on [args] otherwise,
    and the world is as before. *)
Theorem main_pipeline_always_raises {F : Arith R} (gpx : GPX) (distance : R)
    (wd : world) :
  main_pipeline gpx distance wd
  = (Raise (if decide (track_points gpx = []) then ValueError
            else NameError "args"), wd).
Proof.
  unfold main_pipeline, pbind, pure. case_decide as Hp.
  - by rewrite get_bounds_empty.
  - destruct (get_bounds_box gpx Hp) as (s & w & n & e & -> & _).
    reflexivity.
Qed.

Lemma query_text_cases (pois : list POI) (s w n e : R) :
  query_text pois s w n e
  = match pois with
    | [] => Ok ("[out:json][timeout:25];" +:+ newline +:+ "(" +:+ newline
                +:+ ");" +:+ newline +:+ "out body;")
    | _ :: _ => Raise TypeError
    end.
Proof. by destruct pois. Qed.

(** X23. The bounding box never reaches the query: for every collection of
    categories and in every world, [query_POIs] does the same (same text,
    same request, same result) for any two boxes; with no category it posts
    the one fixed text with an empty union block and returns the answer of
    the server. *)
Theorem query_ignores_bounding_box (pois : list POI)
    (s w n e s' w' n' e' : R) (wd : world) :
  query_text pois s w n e = query_text pois s' w' n' e'
  /\ query_POIs pois s w n e wd = query_POIs pois s' w' n' e' wd
  /\ query_POIs [] s w n e wd
     = (overpass wd ("[out:json][timeout:25];" +:+ newline +:+ "("
                     +:+ newline +:+ ");" +:+ newline +:+ "out body;"),
        {| overpass := overpass wd;
           requests := requests wd
                       ++ ["[out:json][timeout:25];" +:+ newline +:+ "("
                           +:+ newline +:+ ");" +:+ newline
                           +:+ "out body;"] |}).
Proof.
  split; [by rewrite !query_text_cases |]. split; [| reflexivity].
  rewrite !query_POIs_run. by rewrite !query_text_cases.
Qed.

(** ** Rendering of a category *)

Lemma string_app_nil (b : string) : EmptyString +:+ b = b.
Proof. reflexivity. Qed.

Lemma string_app_cons (x : ascii) (a b : string) :
  String x a +:+ b = String x (a +:+ b).
Proof. reflexivity. Qed.

Lemma string_app_assoc (a b c : string) : (a +:+ b) +:+ c = a +:+ (b +:+ c).
Proof.
  induction a as [| x a IH]; [done |].
  rewrite !string_app_cons. by f_equal.
Qed.

Lemma string_app_inj_tail (s s' : string) (c : ascii) :
  s +:+ String c EmptyString = s' +:+ String c EmptyString -> s = s'.
Proof.
  revert s'. induction s as [| x s IH]; intros [| y s'];
    rewrite ?string_app_cons, ?string_app_nil; intros H.
  - done.
  - injection H as -> H. destruct s'; discriminate.
  - injection H as -> H. destruct s; discriminate.
  - injection H as -> H. f_equal. by apply IH.
Qed.

(** Two equal texts whose parts before a double quote hold no double quote
    split in the same way at that quote. *)
Lemma split_at_quote (a a' r r' : string) :
  quote_free a = true -> quote_free a' = true ->
  a +:+ String (ascii_of_nat 34) r = a' +:+ String (ascii_of_nat 34) r' ->
  a = a' /\ r = r'.
Proof.
  revert a'. induction a as [| x a IH]; intros [| y a'] Ha Ha';
    rewrite ?string_app_cons, ?string_app_nil; intros H; simpl in Ha, Ha'.
  - by injection H.
  - injection H as <- _. by rewrite Ascii.eqb_refl in Ha'.
  - injection H as -> _. by rewrite Ascii.eqb_refl in Ha.
  - injection H as -> H.
    apply andb_prop in Ha as [_ Ha]. apply andb_prop in Ha' as [_ Ha'].
    destruct (IH a' Ha Ha' H) as [-> ->]. done.
Qed.

Lemma POI_str_shape (p : POI) :
  POI___str__ p
  = String (ascii_of_nat 34)
      (format_attr (_primary p)
       +:+ String (ascii_of_nat 34)
             match _secondary p with
             | Some sec => "=" +:+ dquote +:+ sec +:+ dquote
             | None => EmptyString
             end).
Proof.
  unfold POI___str__, dquote. destruct (_secondary p).
  - rewrite !string_app_cons, !string_app_nil, string_app_assoc.
    by rewrite !string_app_cons, !string_app_nil.
  - by rewrite !string_app_cons, !string_app_nil.
Qed.

(** X24. [POI.__str__] tells categories apart when their keys hold no double
    quote: two categories whose rendered keys are free of double quotes and
    that render to the same text have the same rendered key and the same
    value (both absent, or both present and equal). *)
Theorem POI_str_distinguishes_categories (p1 p2 : POI) :
  quote_free (format_attr (_primary p1)) = true ->
  quote_free (format_attr (_primary p2)) = true ->
  POI___str__ p1 = POI___str__ p2 ->
  format_attr (_primary p1) = format_attr (_primary p2)
  /\ _secondary p1 = _secondary p2.
Proof.
  intros H1 H2. rewrite !POI_str_shape. intros H. injection H as H.
  apply split_at_quote in H as [Hp Hs]; [| done | done].
  split; [done |].
  destruct (_secondary p1) as [s1 |], (_secondary p2) as [s2 |];
    try done; try discriminate.
  unfold dquote in Hs. rewrite !string_app_cons, !string_app_nil in Hs.
  injection Hs as Hs. f_equal. by eapply string_app_inj_tail.
Qed.

Lemma POI_str_distinguishes_categories_witness :
  quote_free (format_attr (_primary category_drinking_water)) = true
  /\ POI___str__ category_drinking_water = POI___str__ category_drinking_water
  /\ _secondary category_drinking_water = _secondary category_drinking_water.
Proof.
  assert (H : quote_free (format_attr (_primary category_drinking_water))
              = true) by reflexivity.
  split; [exact H |]. split; [reflexivity |].
  exact (proj2 (POI_str_distinguishes_categories category_drinking_water
                  category_drinking_water H H eq_refl)).
Defined.

(** X25. [POI.__str__] escapes nothing: a key that contains the text
    quote, equals sign, quote renders like a key with a value, and a
    category without key renders like the key "None". *)
Theorem POI_str_does_not_escape (a b : string) (sec : option string) :
  POI___str__ {| _primary := Some (a +:+ dquote +:+ "=" +:+ dquote +:+ b);
                 _secondary := None |}
  = POI___str__ {| _primary := Some a; _secondary := Some b |}
  /\ POI___str__ {| _primary := None; _secondary := sec |}
     = POI___str__ {| _primary := Some "None"; _secondary := sec |}.
Proof.
  split; [| done]. rewrite !POI_str_shape. simpl. f_equal. unfold dquote.
  rewrite !string_app_assoc.
  by rewrite !string_app_cons, !string_app_nil.
Qed.

(** ** Map display *)

(** X27. Computing the centre of the map divides by the number of points:
    it raises [ZeroDivisionError] exactly when the trace has no point, so
    [display_gpx_on_map] cannot draw an empty trace. *)
Theorem map_center_fails_iff_no_point {F : Arith R} (data : GPX) :
  map_center data = ZeroDivisionError <-> track_points data = [].
Proof.
  unfold map_center, mean.
  destruct (track_points data) as [| pt pts]; simpl; split; done.
Qed.

Lemma tags_getitem_missing (kv : list (string * string)) (key : string) :
  Forall (fun e => e.1 <> key) kv ->
  tags_getitem kv key = Raise (KeyError key).
Proof.
  intros H. unfold tags_getitem.
  destruct (list_find _ kv) as [[i [k v]] |] eqn:E; [| done].
  apply list_find_Some in E as (Hi & Hk & _). simpl in Hk.
  rewrite Forall_forall in H.
  exfalso. apply (H (k, v)); [| done]. by eapply list_elem_of_lookup_2.
Qed.

Lemma sample_spring_no_amenity :
  Forall (fun e : string * string => e.1 <> "amenity") [("natural", "spring")].
Proof. constructor; [simpl; discriminate | constructor]. Qed.

Lemma sample_spring_has_coords : has_coords poi_spring.
Proof. split; eexists; reflexivity. Qed.

(** X28. The marker of a POI needs an [amenity] tag: for a POI with both
    coordinates whose tags hold no [amenity] key, as for an element matched
    as natural=spring, evaluating the arguments of its marker raises
    [KeyError] on [amenity]. *)
Theorem marker_arguments_need_amenity (p : poi) (kv : list (string * string)) :
  has_coords p -> p !! "tags" = Some (JTags kv) ->
  Forall (fun e => e.1 <> "amenity") kv ->
  marker_arguments p = Raise (KeyError "amenity").
Proof.
  intros ([lat Hlat] & [lon Hlon]) Htags Hkv.
  unfold marker_arguments, getitem. rewrite Hlat, Hlon, Htags. simpl.
  by rewrite tags_getitem_missing.
Qed.

Lemma marker_arguments_need_amenity_witness :
  has_coords poi_spring
  /\ poi_spring !! "tags" = Some (JTags [("natural", "spring")])
  /\ marker_arguments poi_spring = Raise (KeyError "amenity").
Proof.
  assert (H : poi_spring !! "tags" = Some (JTags [("natural", "spring")]))
    by reflexivity.
  split; [exact sample_spring_has_coords |]. split; [exact H |].
  exact (marker_arguments_need_amenity poi_spring [("natural", "spring")]
           sample_spring_has_coords H sample_spring_no_amenity).
Defined.
